(** * Gym Buddy voice engine: the speech arbitration code of src/App.js

    A shallow embedding of the module-level voice system of [src/App.js]
    (lines 21-176): the remote adapter [speakWithOpenAI], the local adapter
    [speakBrowser] with its voice table, [cancelAllSpeech] and the [speak]
    entry point, run on a model of the browser's event loop.

    - JavaScript strings are sequences of UTF-16 code units ([list N]); the
      regular expressions of the source carry no [u] flag, so their
      character classes range over code units.
    - Module-level [let] variables are fields of [World], next to the part
      of the host the code talks to: the clock, the tasks suspended at an
      [await], the speech-synthesis queue and the trace of host calls.
    - An [async] function is cut at its [await]s: each suspension point is
      a constructor of [Kont] holding the live locals, and each host event
      (a timer firing, a promise settling) resumes one suspended task and
      runs it to its next suspension point. *)

From Stdlib Require Import ZArith NArith String Ascii Lia.
From Stdlib Require Import DecimalN DecimalPos.
From stdpp Require Import gmap list.

Local Open Scope Z_scope.

(** ** JavaScript strings *)

Module Js.

Definition jsstring := list N.

(** An ASCII literal of the source as code units. *)
Definition lit (s : string) : jsstring :=
  List.map N_of_ascii (list_ascii_of_string s).

Definition eqb (a b : jsstring) : bool := bool_decide (a = b).

(** [!s] is true exactly for the empty string. *)
Definition falsy (s : jsstring) : bool :=
  match s with [] => true | _ :: _ => false end.

Definition mem (c : N) (cls : list N) : bool := List.existsb (N.eqb c) cls.

(** WhiteSpace and LineTerminator code points of ECMAScript, the ones
    [String.prototype.trim] strips. *)
Definition is_white_space (c : N) : bool :=
  (mem c [9; 10; 11; 12; 13; 32; 160; 5760; 8232; 8233; 8239; 8287; 12288; 65279]
   || ((8192 <=? c) && (c <=? 8202)))%N.

Fixpoint trimStart (s : jsstring) : jsstring :=
  match s with
  | [] => []
  | c :: r => if is_white_space c then trimStart r else s
  end.

Definition trimEnd (s : jsstring) : jsstring := rev (trimStart (rev s)).

Definition trim (s : jsstring) : jsstring := trimEnd (trimStart s).

(** [s.replace(/[cls]/g, '')] *)
Definition strip_class (cls : list N) (s : jsstring) : jsstring :=
  List.filter (fun c => negb (mem c cls)) s.

(** [s.replace(/\*\*/g, '')]: matches are found left to right and do not
    overlap. *)
Fixpoint strip_double_star (s : jsstring) : jsstring :=
  match s with
  | 42%N :: (42%N :: r) => strip_double_star r
  | c :: r => c :: strip_double_star r
  | [] => []
  end.

(** [s.replace(/\n/g, by)] *)
Definition replace_newline (by_ : jsstring) (s : jsstring) : jsstring :=
  List.flat_map (fun c => if (c =? 10)%N then by_ else [c]) s.

(** [s.replace(/[^\x00-\x7F]/g, '')] *)
Definition strip_non_ascii (s : jsstring) : jsstring :=
  List.filter (fun c => (c <=? 127)%N) s.

(** [s.slice(0, n)] for [0 <= n] *)
Definition slice0 (n : nat) (s : jsstring) : jsstring := firstn n s.

Fixpoint startsWith (s p : jsstring) : bool :=
  match p, s with
  | [], _ => true
  | a :: p', b :: s' => (a =? b)%N && startsWith s' p'
  | _ :: _, [] => false
  end.

Fixpoint includes (s p : jsstring) : bool :=
  startsWith s p ||
  match s with
  | [] => false
  | _ :: r => includes r p
  end.

End Js.

Import Js.

(** ** Values crossing the model's boundary *)

(** The argument of [speak]: call sites pass strings; the guard
    [text?.trim()] also lets [null] and [undefined] through. *)
Inductive JsArg :=
| ArgUndefined
| ArgNull
| ArgString (s : jsstring).

(** The outcome of an awaited promise or of a [try] block. *)
Inductive completion (A : Type) :=
| Normal (a : A)
| Throw (message : jsstring).
Arguments Normal {A} a.
Arguments Throw {A} message.

(** A [SpeechSynthesisVoice], with the four properties the code reads. *)
Record Voice := {
  voiceURI : jsstring;
  name : jsstring;
  lang : jsstring;
  localService : bool
}.

#[global] Instance Voice_eq_dec : EqDecision Voice.
Proof. solve_decision. Defined.

(** The [Response] of [fetch]; only [ok] is read. *)
Record Response := { ok : bool }.

(** An [Audio] element, identified by the object URL it plays. *)
Record Audio := { src : nat }.

(** ** Text sanitisation (lines 48-53 and 121) *)

(** The class of line 49, as the code units of its source text (the
    astral emoji contribute both surrogate halves). *)
Definition openai_emoji_class : list N :=
  [ 55357; 56613; 55357; 56490; 9889; 55356; 57263; 55356; 57286;
    55356; 57291; 65039; 55358; 56663; 55357; 56884; 55358; 56598;
    55357; 56522; 10024; 55356; 57225; 55356; 57285; 55357; 56523;
    55357; 56517; 55357; 56594; 55356; 57241; 65039; 55356; 57119;
    9889; 55358; 57000; 55358; 57016; 55356; 57151; 55357; 56534 ]%N.

(** The class of line 121: [*], [#] and six emoji. *)
Definition browser_strip_class : list N :=
  [ 42; 35; 55357; 56613; 55357; 56490; 9889; 55356; 57263;
    55356; 57286; 55356; 57291; 65039 ]%N.

Definition openai_clean (text : jsstring) : jsstring :=
  slice0 1000
    (trim
       (strip_non_ascii
          (replace_newline (lit ". ")
             (strip_double_star (strip_class openai_emoji_class text))))).

Definition browser_clean (text : jsstring) : jsstring :=
  trim (replace_newline (lit " ") (strip_class browser_strip_class text)).

(** ** Voice selection (lines 124-127) *)

Definition is_english (v : Voice) : bool := startsWith (lang v) (lit "en").

(** [a || b] on values that are an object or [undefined]. *)
Definition or_else {A} (a b : option A) : option A :=
  match a with Some _ => a | None => b end.

Definition select_voice (selectedVoiceId : jsstring) (browserVoices : list Voice)
  : option Voice :=
  if negb (falsy selectedVoiceId)
  then List.find (fun v => Js.eqb (voiceURI v) selectedVoiceId) browserVoices
  else or_else
         (List.find (fun v => is_english v && negb (localService v)) browserVoices)
         (or_else (List.find is_english browserVoices) (head browserVoices)).

(** The [find] predicate of [loadBrowserVoices] (lines 102-109). *)
Definition is_preferred (v : Voice) : bool :=
  is_english v &&
  (includes (name v) (lit "Samantha") || includes (name v) (lit "Karen") ||
   includes (name v) (lit "Google US") || includes (name v) (lit "Google UK") ||
   includes (name v) (lit "Microsoft Aria") || includes (name v) (lit "Microsoft Jenny") ||
   includes (name v) (lit "Natural") || (negb (localService v) && is_english v)).

(** ** The tasks suspended at an [await] *)

(** One constructor per suspension point of [speak] and of the
    [speakWithOpenAI] call it awaits, with the locals that are live there.
    Inside the adapter, [text] and [seq] are its own parameters, which
    [speak] passes as its [text] and [mySeq]. *)
Inductive Kont :=
| AwaitDebounce (deadline : nat) (text : jsstring) (mySeq : Z)       (* line 165 *)
| AwaitFetch (text : jsstring) (seq : Z)                              (* line 56 *)
| AwaitJson (text : jsstring) (seq : Z)                               (* line 75 *)
| AwaitBlob (text : jsstring) (seq : Z)                               (* line 79 *)
| AwaitOpenAI (text : jsstring) (mySeq : Z) (usedAI : completion bool). (* line 173 *)

(** What a run of an async function body ends in. *)
Inductive AsyncStep :=
| Suspend (k : Kont)
| Return (r : completion bool).

(** The promise a call of [speak] hands back, as it stands when the call
    returns to its caller. *)
Inductive Promise :=
| Fulfilled
| Pending (h : nat)
| Rejected (message : jsstring).

(** ** The trace of host calls *)

(** [act] names the activation of [speak] on whose behalf the call is
    made: the handle of the debounce timer that activation scheduled.  It
    is bookkeeping of the model, not data of the program. *)
Inductive Effect :=
| SetTimeout (h : nat) (delay : nat)
| ClearTimeout (h : nat)
| CallOpenAI (act : nat) (text : jsstring) (seq : Z)
| Fetch (act : nat) (key input voice : jsstring)
| AudioPlay (act : nat) (a : Audio)
| AudioPause (a : Audio)
| Revoke (url : nat)
| CallBrowser (act : nat) (text : jsstring)
| SynthCancel
| SynthSpeak (act : nat) (clean : jsstring) (voice : option Voice)
| Warn (label : string) (detail : option jsstring)
| Rejection (act : nat) (message : jsstring).

(** ** Module variables and host state *)

Record World := {
  (* module-level variables, lines 22-24, 96-97, 140-141 *)
  openaiApiKey : jsstring;
  openaiVoice : jsstring;
  currentTTSAudio : option Audio;
  browserVoices : list Voice;
  selectedVoiceId : jsstring;
  speakSeq : Z;
  pendingSpeakTimer : option nat;
  (* host *)
  hasSpeechSynthesis : bool;      (* 'speechSynthesis' in window *)
  clock : nat;                    (* milliseconds *)
  suspended : gmap nat Kont;      (* live timer or pending promise of each activation *)
  nextHandle : nat;               (* next value returned by setTimeout *)
  nextUrl : nat;                  (* next object URL *)
  synthQueue : list jsstring;     (* utterances held by the speech engine *)
  trace : list Effect             (* oldest first *)
}.

Definition set_openaiApiKey (v : jsstring) (w : World) : World :=
  {| openaiApiKey := v; openaiVoice := openaiVoice w;
     currentTTSAudio := currentTTSAudio w; browserVoices := browserVoices w;
     selectedVoiceId := selectedVoiceId w; speakSeq := speakSeq w;
     pendingSpeakTimer := pendingSpeakTimer w;
     hasSpeechSynthesis := hasSpeechSynthesis w; clock := clock w;
     suspended := suspended w; nextHandle := nextHandle w; nextUrl := nextUrl w;
     synthQueue := synthQueue w; trace := trace w |}.

Definition set_openaiVoice (v : jsstring) (w : World) : World :=
  {| openaiApiKey := openaiApiKey w; openaiVoice := v;
     currentTTSAudio := currentTTSAudio w; browserVoices := browserVoices w;
     selectedVoiceId := selectedVoiceId w; speakSeq := speakSeq w;
     pendingSpeakTimer := pendingSpeakTimer w;
     hasSpeechSynthesis := hasSpeechSynthesis w; clock := clock w;
     suspended := suspended w; nextHandle := nextHandle w; nextUrl := nextUrl w;
     synthQueue := synthQueue w; trace := trace w |}.

Definition set_currentTTSAudio (v : option Audio) (w : World) : World :=
  {| openaiApiKey := openaiApiKey w; openaiVoice := openaiVoice w;
     currentTTSAudio := v; browserVoices := browserVoices w;
     selectedVoiceId := selectedVoiceId w; speakSeq := speakSeq w;
     pendingSpeakTimer := pendingSpeakTimer w;
     hasSpeechSynthesis := hasSpeechSynthesis w; clock := clock w;
     suspended := suspended w; nextHandle := nextHandle w; nextUrl := nextUrl w;
     synthQueue := synthQueue w; trace := trace w |}.

Definition set_browserVoices (v : list Voice) (w : World) : World :=
  {| openaiApiKey := openaiApiKey w; openaiVoice := openaiVoice w;
     currentTTSAudio := currentTTSAudio w; browserVoices := v;
     selectedVoiceId := selectedVoiceId w; speakSeq := speakSeq w;
     pendingSpeakTimer := pendingSpeakTimer w;
     hasSpeechSynthesis := hasSpeechSynthesis w; clock := clock w;
     suspended := suspended w; nextHandle := nextHandle w; nextUrl := nextUrl w;
     synthQueue := synthQueue w; trace := trace w |}.

Definition set_selectedVoiceId (v : jsstring) (w : World) : World :=
  {| openaiApiKey := openaiApiKey w; openaiVoice := openaiVoice w;
     currentTTSAudio := currentTTSAudio w; browserVoices := browserVoices w;
     selectedVoiceId := v; speakSeq := speakSeq w;
     pendingSpeakTimer := pendingSpeakTimer w;
     hasSpeechSynthesis := hasSpeechSynthesis w; clock := clock w;
     suspended := suspended w; nextHandle := nextHandle w; nextUrl := nextUrl w;
     synthQueue := synthQueue w; trace := trace w |}.

Definition set_speakSeq (v : Z) (w : World) : World :=
  {| openaiApiKey := openaiApiKey w; openaiVoice := openaiVoice w;
     currentTTSAudio := currentTTSAudio w; browserVoices := browserVoices w;
     selectedVoiceId := selectedVoiceId w; speakSeq := v;
     pendingSpeakTimer := pendingSpeakTimer w;
     hasSpeechSynthesis := hasSpeechSynthesis w; clock := clock w;
     suspended := suspended w; nextHandle := nextHandle w; nextUrl := nextUrl w;
     synthQueue := synthQueue w; trace := trace w |}.

Definition set_pendingSpeakTimer (v : option nat) (w : World) : World :=
  {| openaiApiKey := openaiApiKey w; openaiVoice := openaiVoice w;
     currentTTSAudio := currentTTSAudio w; browserVoices := browserVoices w;
     selectedVoiceId := selectedVoiceId w; speakSeq := speakSeq w;
     pendingSpeakTimer := v;
     hasSpeechSynthesis := hasSpeechSynthesis w; clock := clock w;
     suspended := suspended w; nextHandle := nextHandle w; nextUrl := nextUrl w;
     synthQueue := synthQueue w; trace := trace w |}.

Definition set_clock (v : nat) (w : World) : World :=
  {| openaiApiKey := openaiApiKey w; openaiVoice := openaiVoice w;
     currentTTSAudio := currentTTSAudio w; browserVoices := browserVoices w;
     selectedVoiceId := selectedVoiceId w; speakSeq := speakSeq w;
     pendingSpeakTimer := pendingSpeakTimer w;
     hasSpeechSynthesis := hasSpeechSynthesis w; clock := v;
     suspended := suspended w; nextHandle := nextHandle w; nextUrl := nextUrl w;
     synthQueue := synthQueue w; trace := trace w |}.

Definition set_suspended (v : gmap nat Kont) (w : World) : World :=
  {| openaiApiKey := openaiApiKey w; openaiVoice := openaiVoice w;
     currentTTSAudio := currentTTSAudio w; browserVoices := browserVoices w;
     selectedVoiceId := selectedVoiceId w; speakSeq := speakSeq w;
     pendingSpeakTimer := pendingSpeakTimer w;
     hasSpeechSynthesis := hasSpeechSynthesis w; clock := clock w;
     suspended := v; nextHandle := nextHandle w; nextUrl := nextUrl w;
     synthQueue := synthQueue w; trace := trace w |}.

Definition set_nextHandle (v : nat) (w : World) : World :=
  {| openaiApiKey := openaiApiKey w; openaiVoice := openaiVoice w;
     currentTTSAudio := currentTTSAudio w; browserVoices := browserVoices w;
     selectedVoiceId := selectedVoiceId w; speakSeq := speakSeq w;
     pendingSpeakTimer := pendingSpeakTimer w;
     hasSpeechSynthesis := hasSpeechSynthesis w; clock := clock w;
     suspended := suspended w; nextHandle := v; nextUrl := nextUrl w;
     synthQueue := synthQueue w; trace := trace w |}.

Definition set_nextUrl (v : nat) (w : World) : World :=
  {| openaiApiKey := openaiApiKey w; openaiVoice := openaiVoice w;
     currentTTSAudio := currentTTSAudio w; browserVoices := browserVoices w;
     selectedVoiceId := selectedVoiceId w; speakSeq := speakSeq w;
     pendingSpeakTimer := pendingSpeakTimer w;
     hasSpeechSynthesis := hasSpeechSynthesis w; clock := clock w;
     suspended := suspended w; nextHandle := nextHandle w; nextUrl := v;
     synthQueue := synthQueue w; trace := trace w |}.

Definition set_synthQueue (v : list jsstring) (w : World) : World :=
  {| openaiApiKey := openaiApiKey w; openaiVoice := openaiVoice w;
     currentTTSAudio := currentTTSAudio w; browserVoices := browserVoices w;
     selectedVoiceId := selectedVoiceId w; speakSeq := speakSeq w;
     pendingSpeakTimer := pendingSpeakTimer w;
     hasSpeechSynthesis := hasSpeechSynthesis w; clock := clock w;
     suspended := suspended w; nextHandle := nextHandle w; nextUrl := nextUrl w;
     synthQueue := v; trace := trace w |}.

Definition emit (e : Effect) (w : World) : World :=
  {| openaiApiKey := openaiApiKey w; openaiVoice := openaiVoice w;
     currentTTSAudio := currentTTSAudio w; browserVoices := browserVoices w;
     selectedVoiceId := selectedVoiceId w; speakSeq := speakSeq w;
     pendingSpeakTimer := pendingSpeakTimer w;
     hasSpeechSynthesis := hasSpeechSynthesis w; clock := clock w;
     suspended := suspended w; nextHandle := nextHandle w; nextUrl := nextUrl w;
     synthQueue := synthQueue w; trace := trace w ++ [e] |}.

(** The page as it is first loaded (lines 22-26, 96-97, 140-141), given
    what local storage and the host hold. *)
Definition initial (key voice : jsstring) (synth : bool) : World :=
  {| openaiApiKey := key;
     openaiVoice := if falsy voice then lit "nova" else voice;
     currentTTSAudio := None; browserVoices := []; selectedVoiceId := [];
     speakSeq := 0; pendingSpeakTimer := None;
     hasSpeechSynthesis := synth; clock := 0%nat; suspended := ∅;
     nextHandle := 0%nat; nextUrl := 0%nat; synthQueue := []; trace := [] |}.

(** ** Numbers *)

Definition MAX_SAFE_INTEGER : Z := 2 ^ 53 - 1.

(** [x++] on a Number holding an integer of [0 .. 2^53], the values a
    counter started at [0] can take: the sum is exact up to
    [MAX_SAFE_INTEGER + 1 = 2^53]; there [2^53 + 1] has no double and
    rounds (ties to even) back to [2^53]. *)
Definition js_incr (x : Z) : Z :=
  if x <=? MAX_SAFE_INTEGER then x + 1 else x.
Arguments js_incr : simpl never.

(** [speakSeq !== seq] *)
Definition stale (seq : Z) (w : World) : bool := negb (speakSeq w =? seq).

(** ** Settings (lines 35-42, 99-111) *)

Definition setOAIKey (key : jsstring) (w : World) : World :=
  set_openaiApiKey (trim key) w.

Definition setOAIVoice (v : jsstring) (w : World) : World :=
  set_openaiVoice v w.

(** [voices] is what [window.speechSynthesis.getVoices()] returns. *)
Definition loadBrowserVoices (voices : list Voice) (w : World) : World :=
  if negb (hasSpeechSynthesis w) then w
  else
    let w := set_browserVoices voices w in
    match List.find is_preferred (browserVoices w) with
    | Some preferred =>
        if falsy (selectedVoiceId w)
        then set_selectedVoiceId (voiceURI preferred) w
        else w
    | None => w
    end.

(** ** cancelAllSpeech (lines 143-155) *)

(** The host's [clearTimeout]: a live timer is dropped, and the promise its
    callback would have resolved stays pending for ever. *)
Definition clearTimeout (h : nat) (w : World) : World :=
  let w := emit (ClearTimeout h) w in
  match suspended w !! h with
  | Some (AwaitDebounce _ _ _) => set_suspended (delete h (suspended w)) w
  | _ => w
  end.

Definition cancelAllSpeech (w : World) : World :=
  let w := set_speakSeq (js_incr (speakSeq w)) w in
  let w := match pendingSpeakTimer w with
           | Some h => set_pendingSpeakTimer None (clearTimeout h w)
           | None => w
           end in
  let w := if hasSpeechSynthesis w
           then set_synthQueue [] (emit SynthCancel w)
           else w in
  match currentTTSAudio w with
  | Some a =>
      set_currentTTSAudio None (emit (Revoke (src a)) (emit (AudioPause a) w))
  | None => w
  end.

(** ** speakBrowser (lines 118-133) *)

Definition speakBrowser (act : nat) (text : jsstring) (w : World) : World :=
  let w := emit (CallBrowser act text) w in
  if negb (hasSpeechSynthesis w) then w
  else
    let w := set_synthQueue [] (emit SynthCancel w) in
    let clean := browser_clean text in
    if falsy clean then w
    else
      let voice := select_voice (selectedVoiceId w) (browserVoices w) in
      set_synthQueue (synthQueue w ++ [clean])
        (emit (SynthSpeak act clean voice) w).

(** ** speakWithOpenAI (lines 45-93) *)

(** From entry to the first [await] (lines 46-69).  The [try] block opens
    at line 47; nothing before the [fetch] can throw on a string. *)
Definition speakWithOpenAI (act : nat) (text : jsstring) (seq : Z) (w : World)
  : AsyncStep * World :=
  let w := emit (CallOpenAI act text seq) w in
  if falsy (openaiApiKey w) then (Return (Normal false), w)
  else
    let clean := openai_clean text in
    if falsy clean then (Return (Normal false), w)
    else (Suspend (AwaitFetch text seq),
          emit (Fetch act (openaiApiKey w) clean (openaiVoice w)) w).

(** From [await fetch(...)] to the next [await] or [return] (lines 56-79);
    a rejected [fetch] lands in the [catch] of line 89. *)
Definition speakWithOpenAI_fetched (text : jsstring) (seq : Z)
    (r : completion Response) (w : World) : AsyncStep * World :=
  match r with
  | Throw e => (Return (Normal false), emit (Warn "OpenAI TTS failed:" (Some e)) w)
  | Normal response =>
      if stale seq w then (Return (Normal true), w)
      else if negb (ok response) then (Suspend (AwaitJson text seq), w)
      else (Suspend (AwaitBlob text seq), w)
  end.

(** From [await response.json()] to [return false] (lines 75-76); [r] is
    [j?.error?.message], or the exception the inner [catch] swallows. *)
Definition speakWithOpenAI_json (r : completion (option jsstring)) (w : World)
  : AsyncStep * World :=
  match r with
  | Normal message => (Return (Normal false), emit (Warn "OpenAI TTS:" message) w)
  | Throw _ => (Return (Normal false), w)
  end.

(** From [await response.blob()] to the end (lines 79-88). *)
Definition speakWithOpenAI_blob (act : nat) (seq : Z) (r : completion unit)
    (w : World) : AsyncStep * World :=
  match r with
  | Throw e => (Return (Normal false), emit (Warn "OpenAI TTS failed:" (Some e)) w)
  | Normal _ =>
      if stale seq w then (Return (Normal true), w)
      else
        let audio := {| src := nextUrl w |} in
        let w := set_nextUrl (S (nextUrl w)) w in
        let w := set_currentTTSAudio (Some audio) w in
        (Return (Normal true), emit (AudioPlay act audio) w)
  end.

(** The handlers of lines 85-86. *)
Definition audio_handler (a : Audio) (w : World) : World :=
  set_currentTTSAudio None (emit (Revoke (src a)) w).

(** ** speak (lines 157-176) *)

(** The adapter was called at line 173 by activation [h]: either it is
    suspended inside, or its promise has settled and [speak] waits at the
    [await] of line 173 for its turn. *)
Definition await_adapter (h : nat) (text : jsstring) (mySeq : Z)
    (st : AsyncStep * World) : World :=
  let w := st.2 in
  match st.1 with
  | Suspend k => set_suspended (<[h := k]> (suspended w)) w
  | Return r => set_suspended (<[h := AwaitOpenAI text mySeq r]> (suspended w)) w
  end.

(** Lines 158-170: up to the debounce [await]. *)
Definition speak (text : JsArg) (w : World) : Promise * World :=
  match text with
  | ArgUndefined | ArgNull => (Fulfilled, w)
  | ArgString s =>
      if falsy (trim s) then (Fulfilled, w)
      else
        let w := cancelAllSpeech w in
        let mySeq := speakSeq w in
        let h := nextHandle w in
        let w := set_nextHandle (S h) (emit (SetTimeout h 250) w) in
        let w := set_pendingSpeakTimer (Some h) w in
        (Pending h,
         set_suspended (<[h := AwaitDebounce (clock w + 250) s mySeq]> (suspended w)) w)
  end.

(** A value that is neither [undefined], [null] nor a string and that has
    no [trim] method. *)
Inductive Untrimmable :=
| NumberValue (n : Z)        (* an integer Number: 42 *)
| BooleanValue (b : bool)
| PlainObject.               (* {} *)

(** Any value a caller can hand to [speak]. *)
Inductive JsValue :=
| ValArg (a : JsArg)
| ValOther (v : Untrimmable).

(** The message of the TypeError of calling a [trim] that is not there;
    its wording is the engine's (V8's here). *)
Definition trim_is_not_a_function : jsstring :=
  lit "text?.trim is not a function".

(** Line 158 on any argument.  [text?.trim] short-circuits on [undefined]
    and [null] only: on another value without a [trim] method the call
    raises a TypeError before line 161 is reached, and an [async] function
    hands it back as a rejected promise. *)
Definition speak_value (text : JsValue) (w : World) : Promise * World :=
  match text with
  | ValArg a => speak a w
  | ValOther _ => (Rejected trim_is_not_a_function, w)
  end.

(** The timer callback of lines 166-169 and, in the same turn, lines
    171-173. *)
Definition speak_debounced (h : nat) (text : jsstring) (mySeq : Z) (w : World)
  : World :=
  let w := set_pendingSpeakTimer None w in
  if stale mySeq w then set_suspended (delete h (suspended w)) w
  else await_adapter h text mySeq (speakWithOpenAI h text mySeq w).

(** Lines 173-175, once the adapter's promise has settled. *)
Definition speak_resumed (h : nat) (text : jsstring) (mySeq : Z)
    (usedAI : completion bool) (w : World) : World :=
  let w := set_suspended (delete h (suspended w)) w in
  match usedAI with
  | Throw e => emit (Rejection h e) w
  | Normal usedAI =>
      if stale mySeq w then w
      else if negb usedAI then speakBrowser h text w
      else w
  end.

(** ** The event loop *)

(** One event is one uninterrupted run of code: a call from a handler of
    the page, or the host resuming a suspended activation.  Between the
    adapter's [return] and the resumption of [speak] at line 173 the host
    runs only queued promise jobs; here any event may come in between,
    which covers every order the host can produce. *)
Inductive Event :=
| CallSpeak (text : JsArg)                      (* a handler calls speak(text) *)
| CallCancelAll                                 (* a handler calls cancelAllSpeech() *)
| CallSetOAIKey (key : jsstring)
| CallSetOAIVoice (v : jsstring)
| VoicesChanged (voices : list Voice)           (* onvoiceschanged *)
| Elapse (ms : nat)                             (* time passes *)
| TimerFire (h : nat)                           (* a due timer runs its callback *)
| FetchSettled (h : nat) (r : completion Response)
| JsonSettled (h : nat) (r : completion (option jsstring))
| BlobSettled (h : nat) (r : completion unit)
| OpenAISettled (h : nat)                       (* speak resumes at line 173 *)
| AudioEnded (a : Audio)
| AudioError (a : Audio)
| PlayRejected (message : jsstring)             (* the catch of line 87 *)
| UtteranceEnded.

Definition step (e : Event) (w : World) : World :=
  match e with
  | CallSpeak text => (speak text w).2
  | CallCancelAll => cancelAllSpeech w
  | CallSetOAIKey key => setOAIKey key w
  | CallSetOAIVoice v => setOAIVoice v w
  | VoicesChanged voices => loadBrowserVoices voices w
  | Elapse ms => set_clock (clock w + ms) w
  | TimerFire h =>
      match suspended w !! h with
      | Some (AwaitDebounce deadline text mySeq) =>
          if (deadline <=? clock w)%nat then speak_debounced h text mySeq w else w
      | _ => w
      end
  | FetchSettled h r =>
      match suspended w !! h with
      | Some (AwaitFetch text seq) =>
          await_adapter h text seq (speakWithOpenAI_fetched text seq r w)
      | _ => w
      end
  | JsonSettled h r =>
      match suspended w !! h with
      | Some (AwaitJson text seq) =>
          await_adapter h text seq (speakWithOpenAI_json r w)
      | _ => w
      end
  | BlobSettled h r =>
      match suspended w !! h with
      | Some (AwaitBlob text seq) =>
          await_adapter h text seq (speakWithOpenAI_blob h seq r w)
      | _ => w
      end
  | OpenAISettled h =>
      match suspended w !! h with
      | Some (AwaitOpenAI text mySeq usedAI) => speak_resumed h text mySeq usedAI w
      | _ => w
      end
  | AudioEnded a | AudioError a =>
      if (src a <? nextUrl w)%nat then audio_handler a w else w
  | PlayRejected message => emit (Warn "Audio play failed:" (Some message)) w
  | UtteranceEnded => set_synthQueue (tail (synthQueue w)) w
  end.

Definition run (evs : list Event) (w : World) : World :=
  fold_left (fun w e => step e w) evs w.

(** ** Reading schedules and traces *)

(** [text?.trim()] is falsy. *)
Definition blank (text : JsArg) : bool :=
  match text with
  | ArgUndefined | ArgNull => true
  | ArgString s => falsy (trim s)
  end.

(** The events that reach line 144: [cancelAllSpeech()] itself and every
    [speak] that passes its guard. *)
Definition supersedes (e : Event) : bool :=
  match e with
  | CallCancelAll => true
  | CallSpeak text => negb (blank text)
  | _ => false
  end.

Definition count_superseding (evs : list Event) : Z :=
  Z.of_nat (length (List.filter supersedes evs)).

(** Milliseconds that pass during a schedule. *)
Definition elapsed (evs : list Event) : nat :=
  fold_right (fun e n => match e with Elapse ms => (ms + n)%nat | _ => n end) 0%nat evs.

(** The activation an event resumes. *)
Definition target (e : Event) : option nat :=
  match e with
  | TimerFire h | FetchSettled h _ | JsonSettled h _ | BlobSettled h _
  | OpenAISettled h => Some h
  | _ => None
  end.

(** An event that leaves activation [h] alone: it does not resume it, does
    not touch the token and does not replace the credential. *)
Definition bystander (h : nat) (e : Event) : bool :=
  negb (supersedes e)
  && negb (bool_decide (target e = Some h))
  && match e with CallSetOAIKey _ => false | _ => true end.

(** The activation a host call is made for. *)
Definition act_of (e : Effect) : option nat :=
  match e with
  | CallOpenAI a _ _ | Fetch a _ _ _ | AudioPlay a _ | CallBrowser a _
  | SynthSpeak a _ _ | Rejection a _ => Some a
  | _ => None
  end.

Definition by_act (h : nat) (e : Effect) : bool :=
  bool_decide (act_of e = Some h).

(** Everything activation [h] did at a backend, oldest first. *)
Definition effects_of (h : nat) (tr : list Effect) : list Effect :=
  List.filter (by_act h) tr.
Arguments effects_of : simpl never.

(** What [speakBrowser(text)] leaves in the trace of its activation. *)
Definition browser_effects (h : nat) (text : jsstring) (w : World) : list Effect :=
  CallBrowser h text ::
  (if hasSpeechSynthesis w && negb (falsy (browser_clean text))
   then [SynthSpeak h (browser_clean text)
           (select_voice (selectedVoiceId w) (browserVoices w))]
   else []).

(** ** Well-formed worlds *)

Definition is_timer (k : option Kont) : Prop :=
  match k with Some (AwaitDebounce _ _ _) => True | _ => False end.

Record Inv (w : World) : Prop := {
  (* handles in use were handed out *)
  inv_handles : ∀ h k, suspended w !! h = Some k → (h < nextHandle w)%nat;
  (* the only live timer is the tracked one *)
  inv_timer : ∀ h, is_timer (suspended w !! h) → pendingSpeakTimer w = Some h;
  (* the trace speaks of activations that exist *)
  inv_trace : ∀ e h, e ∈ trace w → act_of e = Some h → (h < nextHandle w)%nat;
  (* the adapter's promise is never rejected *)
  inv_settled : ∀ h t q r, suspended w !! h = Some (AwaitOpenAI t q r) →
                           ∃ b, r = Normal b;
  (* the token stays where Number arithmetic is the integers' *)
  inv_token : 0 ≤ speakSeq w ≤ MAX_SAFE_INTEGER + 1
}.

(** Activation [h] can do nothing any more: it is gone, or its adapter
    returned under a token that has moved on. *)
Definition inert (h : nat) (w : World) : Prop :=
  (h < nextHandle w)%nat ∧
  (suspended w !! h = None ∨
   ∃ t q b, suspended w !! h = Some (AwaitOpenAI t q (Normal b)) ∧ q < speakSeq w).

(** What an activation [h] can tell apart between two worlds. *)
Definition same_for (h : nat) (w w' : World) : Prop :=
  suspended w' !! h = suspended w !! h ∧
  speakSeq w' = speakSeq w ∧
  openaiApiKey w' = openaiApiKey w ∧
  hasSpeechSynthesis w' = hasSpeechSynthesis w ∧
  effects_of h (trace w') = effects_of h (trace w).

(** Activation [h] is still in its debounce delay, due at [d], or was
    cancelled during it; it has not reached a backend. *)
Definition debouncing (h d : nat) (w : World) : Prop :=
  (h < nextHandle w)%nat ∧
  effects_of h (trace w) = [] ∧
  (suspended w !! h = None ∨
   ∃ t q, suspended w !! h = Some (AwaitDebounce d t q)).

(** ** The specification's words *)

Definition whitespace_only (s : jsstring) : Prop :=
  Forall (fun c => is_white_space c = true) s.

(** [v] is the first element of [l] that satisfies [p]. *)
Definition first_such {A} (p : A → bool) (l : list A) (v : A) : Prop :=
  ∃ l1 l2, l = l1 ++ v :: l2 ∧ p v = true ∧ Forall (fun x => p x = false) l1.

Definition none_such {A} (p : A → bool) (l : list A) : Prop :=
  Forall (fun x => p x = false) l.

Definition has_id (id : jsstring) (v : Voice) : bool := Js.eqb (voiceURI v) id.

Definition english_remote (v : Voice) : bool := is_english v && negb (localService v).

(** The preference order in the specification's words: the voice with
    the chosen identifier when one is set; otherwise an English voice that
    is not a local service, else any English voice, else the first voice;
    and no voice when the list is empty. *)
Inductive stated_voice_order (id : jsstring) (voices : list Voice)
  : option Voice → Prop :=
| svo_chosen v :
    id ≠ [] → first_such (has_id id) voices v →
    stated_voice_order id voices (Some v)
| svo_english_remote v :
    id = [] → first_such english_remote voices v →
    stated_voice_order id voices (Some v)
| svo_english v :
    id = [] → none_such english_remote voices → first_such is_english voices v →
    stated_voice_order id voices (Some v)
| svo_first v rest :
    id = [] → none_such is_english voices → voices = v :: rest →
    stated_voice_order id voices (Some v)
| svo_none :
    voices = [] → stated_voice_order id voices None.

(** The case those words leave out: an identifier is set and no voice of
    a non-empty list has it. *)
Definition chosen_voice_missing (id : jsstring) (voices : list Voice) : Prop :=
  id ≠ [] ∧ voices ≠ [] ∧ none_such (has_id id) voices.

(** The order [speakBrowser] follows: the one above and, when the chosen
    voice is missing, no voice. *)
Definition effective_voice_order (id : jsstring) (voices : list Voice)
    (r : option Voice) : Prop :=
  stated_voice_order id voices r ∨ (chosen_voice_missing id voices ∧ r = None).

(** ** What the voice system does beyond single calls *)

(** [getVoiceOptions] (lines 178-180). *)
Definition getVoiceOptions (w : World) : list Voice :=
  List.filter is_english (browserVoices w).

(** The token a suspended activation captured at line 162. *)
Definition token_of (k : Kont) : Z :=
  match k with
  | AwaitDebounce _ _ q | AwaitFetch _ q | AwaitJson _ q | AwaitBlob _ q
  | AwaitOpenAI _ q _ => q
  end.

(** The host calls one event makes, and those made between two worlds. *)
Definition new_effects (e : Event) (w : World) : list Effect :=
  drop (length (trace w)) (trace (step e w)).

Definition effects_since (w w' : World) : list Effect :=
  drop (length (trace w)) (trace w').

(** A [speak] that passes its guard. *)
Definition starts_speech (e : Event) : bool :=
  match e with
  | CallSpeak text => negb (blank text)
  | _ => false
  end.

(** No suspended activation is ahead of the token, and only the one
    started last can hold the current token. *)
Record Fresh (w : World) : Prop := {
  fresh_token : ∀ h k, suspended w !! h = Some k → token_of k ≤ speakSeq w;
  fresh_latest : ∀ h k, suspended w !! h = Some k →
                        token_of k = speakSeq w → S h = nextHandle w
}.

(** Activation [h] is past its debounce and behind the token (or gone). *)
Definition spent (h : nat) (w : World) : Prop :=
  match suspended w !! h with
  | None => True
  | Some (AwaitDebounce _ _ _) => False
  | Some (AwaitOpenAI _ q r) => q < speakSeq w ∧ ∃ b, r = Normal b
  | Some k => token_of k < speakSeq w
  end.

(** What a well-formed world allows an event to add to the trace. *)
Definition allowed_effect (w : World) (eff : Effect) : Prop :=
  match eff with
  | Rejection _ _ => False
  | Fetch _ key input _ =>
      key = openaiApiKey w ∧ key ≠ [] ∧ input ≠ [] ∧
      ∃ text, input = openai_clean text
  | SynthSpeak _ clean voice =>
      hasSpeechSynthesis w = true ∧ clean ≠ [] ∧
      voice = select_voice (selectedVoiceId w) (browserVoices w) ∧
      ∃ text, clean = browser_clean text
  | _ => True
  end.

(** An event that installs a credential. *)
Definition sets_key (e : Event) : bool :=
  match e with
  | CallSetOAIKey _ => true
  | _ => false
  end.

Definition is_fetch (eff : Effect) : bool :=
  match eff with
  | Fetch _ _ _ _ => true
  | _ => false
  end.

(** ** Numbers as text *)

(** The decimal digits of [Number.prototype.toString] for a non-negative
    integer below [10^21]. *)
Fixpoint uint_digits (d : Decimal.uint) : jsstring :=
  match d with
  | Decimal.Nil => []
  | Decimal.D0 d => 48%N :: uint_digits d
  | Decimal.D1 d => 49%N :: uint_digits d
  | Decimal.D2 d => 50%N :: uint_digits d
  | Decimal.D3 d => 51%N :: uint_digits d
  | Decimal.D4 d => 52%N :: uint_digits d
  | Decimal.D5 d => 53%N :: uint_digits d
  | Decimal.D6 d => 54%N :: uint_digits d
  | Decimal.D7 d => 55%N :: uint_digits d
  | Decimal.D8 d => 56%N :: uint_digits d
  | Decimal.D9 d => 57%N :: uint_digits d
  end.

Definition toString (n : N) : jsstring := uint_digits (N.to_uint n).

(** [/[0-9]/] *)
Definition is_digit (c : N) : bool := ((48 <=? c) && (c <=? 57))%N.

(** [s.padStart(2, '0')] *)
Definition padStart2 (s : jsstring) : jsstring :=
  repeat 48%N (2 - length s)%nat ++ s.

(** The value of the longest prefix of decimal digits, read left to right
    from [acc]. *)
Fixpoint read_digits (acc : N) (s : jsstring) : N :=
  match s with
  | c :: r => if is_digit c then read_digits (10 * acc + (c - 48))%N r else acc
  | [] => acc
  end.

(** [parseInt(s)] on a string, radix omitted: leading whitespace, a sign,
    then decimal digits (hexadecimal after [0x]); [None] is [NaN].  The
    value is the mathematical one; the Number it rounds to compares the
    same way with the integers of the source. *)
Definition hex_value (c : N) : option N :=
  if is_digit c then Some (c - 48)%N
  else if ((97 <=? c) && (c <=? 102))%N then Some (c - 87)%N
  else if ((65 <=? c) && (c <=? 70))%N then Some (c - 55)%N
  else None.

Fixpoint read_hex (acc : N) (s : jsstring) : N :=
  match s with
  | c :: r =>
      match hex_value c with
      | Some v => read_hex (16 * acc + v)%N r
      | None => acc
      end
  | [] => acc
  end.

Definition parse_decimal (s : jsstring) : option N :=
  match s with
  | c :: _ => if is_digit c then Some (read_digits 0%N s) else None
  | [] => None
  end.

Definition parse_hex (s : jsstring) : option N :=
  match s with
  | h :: _ =>
      match hex_value h with
      | Some _ => Some (read_hex 0%N s)
      | None => None
      end
  | [] => None
  end.

Definition parse_magnitude (s : jsstring) : option N :=
  match s with
  | z :: x :: r =>
      if ((z =? 48) && ((x =? 120) || (x =? 88)))%N
      then parse_hex r
      else parse_decimal s
  | _ => parse_decimal s
  end.

Definition parseInt (s : jsstring) : option Z :=
  match trimStart s with
  | c :: r =>
      if (c =? 45)%N then (fun m => (- Z.of_N m)%Z) <$> parse_magnitude r
      else if (c =? 43)%N then Z.of_N <$> parse_magnitude r
      else Z.of_N <$> parse_magnitude (c :: r)
  | [] => None
  end.

(** ** The workout timer display (lines 1340-1345) *)

(** [totalSeconds] counts ticks from zero: an integer below [2^53], where
    [Math.floor(a / b)] and [a % b] are the integer quotient and
    remainder. *)
Definition formatTime (totalSeconds : N) : jsstring :=
  let hrs := (totalSeconds / 3600)%N in
  let mins := ((totalSeconds mod 3600) / 60)%N in
  let secs := (totalSeconds mod 60)%N in
  padStart2 (toString hrs) ++ lit ":" ++ padStart2 (toString mins) ++
  lit ":" ++ padStart2 (toString secs).

(** Reading a display back: the last two characters are the seconds, the
    two before the second colon the minutes, the rest the hours. *)
Definition clock_seconds (s : jsstring) : N :=
  let n := length s in
  (3600 * read_digits 0%N (take (n - 6)%nat s)
   + 60 * read_digits 0%N (take 2 (drop (n - 5)%nat s))
   + read_digits 0%N (drop (n - 2)%nat s))%N.

(** ** The profile form (lines 2199-2206 and 2342-2359) *)

(** [value.replace(/[^0-9]/g, '')], what [handleNumberInput] stores. *)
Definition handleNumberInput (value : jsstring) : jsstring :=
  List.filter is_digit value.

(** The fields of [userData] the checks read, as the strings they hold. *)
Record ProfileForm := {
  form_name : jsstring;
  form_age : jsstring;
  form_weight : jsstring;
  form_feet : jsstring;
  form_inches : jsstring
}.

(** [!field || parseInt(field) < lo || parseInt(field) > hi]; a
    comparison with [NaN] is false. *)
Definition out_of_range (field : jsstring) (lo hi : Z) : bool :=
  falsy field ||
  match parseInt field with
  | Some v => (v <? lo) || (hi <? v)
  | None => false
  end.

(** The checks of [handleSubmitInfo]: the text it hands to [speak] when
    it turns the form down, or [None] when it goes on to lines 2361-2369. *)
Definition handleSubmitInfo_check (f : ProfileForm) : option jsstring :=
  if falsy (trim (form_name f))
  then Some (lit "Hey, I need your name to personalize your experience!")
  else if out_of_range (form_age f) 10 120
  then Some (lit "Please enter a valid age between 10 and 120.")
  else if out_of_range (form_weight f) 50 700
  then Some (lit "Please enter a valid weight between 50 and 700 pounds.")
  else if out_of_range (form_feet f) 3 8
  then Some (lit "Please enter a valid height. Feet should be between 3 and 8.")
  else None.

(** ** The chatbot's memory (lines 1596-1603) *)

Inductive Role := RoleUser | RoleAssistant.

(** [a.slice(-n)] *)
Definition slice_last {A} (n : nat) (l : list A) : list A :=
  drop (length l - n)%nat l.

(** What [getRealAIReply] leaves in [historyRef.current] after an answer. *)
Definition remember (history : list (Role * jsstring)) (userMsg reply : jsstring)
  : list (Role * jsstring) :=
  slice_last 20 (history ++ [(RoleUser, userMsg); (RoleAssistant, reply)]).

(** [getRealAIReply] from the arrival of the response (lines 1590-1605):
    [error] is [j?.error?.message || `HTTP ${res.status}`], [reply] is
    [data.choices?.[0]?.message?.content] when it is a string. *)
Definition getRealAIReply_received
    (history : list (Role * jsstring)) (userMsg : jsstring)
    (res_ok : bool) (error : jsstring) (reply : option jsstring)
  : completion jsstring * list (Role * jsstring) :=
  if negb res_ok then (Throw error, history)
  else match reply with
       | Some (c :: r) => (Normal (c :: r), remember history userMsg (c :: r))
       | _ => (Throw (lit "empty response"), history)
       end.

(** Exchanges: a user message, then the answer to it. *)
Fixpoint exchanges (h : list (Role * jsstring)) : Prop :=
  match h with
  | [] => True
  | (RoleUser, _) :: (RoleAssistant, _) :: rest => exchanges rest
  | _ => False
  end.

(** ** The checklist (lines 2229-2270) *)

(** The key of exercise [index] on the day [today] (a [toDateString()]). *)
Definition workout_key (today : jsstring) (index : nat) : jsstring :=
  today ++ lit "-" ++ toString (N.of_nat index).

Definition encouragements : list jsstring :=
  [ lit "Boom! One more down! You're killing it!";
    lit "Yes! That's the spirit! Keep pushing!";
    lit "Awesome work! You're making progress!";
    lit "Crushed it! You're unstoppable!";
    lit "Nice! Every rep counts! Keep going!" ].

(** [completedWorkouts] maps keys to values of which only the truthiness
    is read; the handler itself stores [true].  Its keys hold a [-], so
    none is a property of [Object.prototype]. *)
Record Toggled := {
  toggled_completed : gmap jsstring bool;   (* handed to saveCompletedWorkouts *)
  toggled_spoken : option JsArg             (* handed to speak *)
}.

(** [pick] is [Math.floor(Math.random() * encouragements.length)].  The
    stamp sound and the stamp animation of lines 2243-2245 leave no state
    behind and are left out. *)
Definition toggleWorkoutComplete (today : jsstring) (index pick : nat)
    (timerRunning : bool) (completedWorkouts : gmap jsstring bool) : Toggled :=
  if negb timerRunning
  then {| toggled_completed := completedWorkouts;
          toggled_spoken := Some (ArgString (lit
            "Start the timer first! You need to be actively working out to check off exercises!")) |}
  else
    let key := workout_key today index in
    match completedWorkouts !! key with
    | Some true =>
        {| toggled_completed := delete key completedWorkouts;
           toggled_spoken := None |}
    | _ =>
        {| toggled_completed := <[key := true]> completedWorkouts;
           toggled_spoken :=
             Some (match encouragements !! pick with
                   | Some t => ArgString t
                   | None => ArgUndefined
                   end) |}
    end.

Definition isWorkoutComplete (today : jsstring) (index : nat)
    (completedWorkouts : gmap jsstring bool) : bool :=
  match completedWorkouts !! workout_key today index with
  | Some v => v
  | None => false
  end.

Definition getCompletedCount (today : jsstring)
    (completedWorkouts : gmap jsstring bool) : nat :=
  length (List.filter (fun key => startsWith key today)
            (map_to_list completedWorkouts).*1).

(** A run of clicks on the checklist, each with the state of the timer
    and the roll of [Math.random] at that moment. *)
Record Click := {
  click_index : nat;
  click_pick : nat;
  click_timerRunning : bool
}.

Definition click (today : jsstring) (m : gmap jsstring bool) (c : Click)
  : gmap jsstring bool :=
  toggled_completed
    (toggleWorkoutComplete today (click_index c) (click_pick c)
       (click_timerRunning c) m).

(** The boxes of a plan of [n] exercises that show as ticked. *)
Definition ticked (today : jsstring) (n : nat) (m : gmap jsstring bool)
  : list nat :=
  List.filter (fun i => isWorkoutComplete today i m) (seq 0 n).

(** A checklist whose entries for [today] are ticks of a plan of [n]
    exercises: what the handlers store. *)
Definition todays_ticks (today : jsstring) (n : nat) (m : gmap jsstring bool)
  : Prop :=
  ∀ key v, m !! key = Some v → startsWith key today = true →
    v = true ∧ ∃ i, (i < n)%nat ∧ key = workout_key today i.

(** A field that reads as a number from [lo] to [hi]. *)
Definition reads_within (field : jsstring) (lo hi : Z) : Prop :=
  field ≠ [] ∧ lo ≤ Z.of_N (read_digits 0%N field) ≤ hi.

(** The answers of the chat service, in the order they arrive. *)
Record Answer := {
  ans_userMsg : jsstring;
  ans_ok : bool;
  ans_error : jsstring;
  ans_reply : option jsstring
}.

Definition memory_after (answers : list Answer) : list (Role * jsstring) :=
  fold_left
    (fun h a =>
       (getRealAIReply_received h (ans_userMsg a) (ans_ok a) (ans_error a)
          (ans_reply a)).2)
    answers [].

(** The exchanges that were answered, all of them. *)
Definition dialogue (answers : list Answer) : list (Role * jsstring) :=
  flat_map
    (fun a =>
       match ans_ok a, ans_reply a with
       | true, Some (c :: r) =>
           [(RoleUser, ans_userMsg a); (RoleAssistant, c :: r)]
       | _, _ => []
       end)
    answers.

(** ** Accounts (lines 1947-1974, 2109-2121, 2124-2125, 2165-2166, 2184-2196, 2410-2412) *)

(** An account as stored under [gymBuddyAccounts]: the password, and the
    other properties ([userData], [workoutHistory], [completedWorkouts],
    [hasCompletedRealWorkout]) as one value of type [D].  The stored
    object is taken as the handlers leave it: [getAccounts] reads back
    what the last [setItem] wrote. *)
Record Account (D : Type) := {
  acct_password : jsstring;
  acct_data : D
}.
Arguments acct_password {D} _.
Arguments acct_data {D} _.

(** What [accounts[k]] evaluates to: an account of the object itself, a
    member of [Object.prototype] ([constructor], [toString], ...), or
    [undefined]. *)
Inductive Property (D : Type) :=
| OwnAccount (a : Account D)
| Inherited
| Absent.
Arguments OwnAccount {D} a.
Arguments Inherited {D}.
Arguments Absent {D}.

Inductive LoginResult (D : Type) :=
| LoginError (message : jsstring)                       (* setError(...) *)
| LoggedIn (username : jsstring) (account : Account D). (* onLogin(...) *)
Arguments LoginError {D} message.
Arguments LoggedIn {D} username account.

Definition is_logged_in {D} (r : LoginResult D) : bool :=
  match r with LoggedIn _ _ => true | LoginError _ => false end.

Section Accounts.

(** [String.prototype.toLowerCase] and the property names of
    [Object.prototype] are the host's. *)
Variable toLowerCase : jsstring → jsstring.
Variable inherited : jsstring → bool.
Variable D : Type.
(** [userData: null, workoutHistory: []] *)
Variable initial_data : D.

Definition get_property (accounts : gmap jsstring (Account D)) (k : jsstring)
  : Property D :=
  match accounts !! k with
  | Some a => OwnAccount a
  | None => if inherited k then Inherited else Absent
  end.

(** A member of [Object.prototype] is truthy and has no [password]. *)
Definition handleLogin (accounts : gmap jsstring (Account D))
    (username password : jsstring) : LoginResult D :=
  if falsy (trim username) || falsy (trim password)
  then LoginError (lit "Please fill in all fields.")
  else match get_property accounts (toLowerCase username) with
       | Absent => LoginError (lit "Account not found. Please sign up first.")
       | Inherited => LoginError (lit "Incorrect password.")
       | OwnAccount a =>
           if eqb (acct_password a) password
           then LoggedIn (toLowerCase username) a
           else LoginError (lit "Incorrect password.")
       end.

Definition handleSignup (accounts : gmap jsstring (Account D))
    (username password confirmPw : jsstring)
  : LoginResult D * gmap jsstring (Account D) :=
  if falsy (trim username) || falsy (trim password)
  then (LoginError (lit "Please fill in all fields."), accounts)
  else if negb (eqb password confirmPw)
  then (LoginError (lit "Passwords do not match."), accounts)
  else if (length password <? 4)%nat
  then (LoginError (lit "Password must be at least 4 characters."), accounts)
  else if (length username <? 2)%nat
  then (LoginError (lit "Username must be at least 2 characters."), accounts)
  else match get_property accounts (toLowerCase username) with
       | Absent =>
           let newAccount := {| acct_password := password; acct_data := initial_data |} in
           (LoggedIn (toLowerCase username) newAccount,
            <[toLowerCase username := newAccount]> accounts)
       | _ => (LoginError (lit "Username already taken. Please log in."), accounts)
       end.

(** [data] spreads over the account's other properties; no caller passes
    a [password].  Spreading over a member of [Object.prototype] is
    outside this model: [None]. *)
Definition saveAccountData (username : jsstring) (data : D → D)
    (accounts : gmap jsstring (Account D))
  : option (gmap jsstring (Account D)) :=
  if falsy username || eqb username (lit "guest") then Some accounts
  else match get_property accounts username with
       | OwnAccount a =>
           Some (<[username := {| acct_password := acct_password a;
                                  acct_data := data (acct_data a) |}]> accounts)
       | Absent => Some accounts
       | Inherited => None
       end.

(** The stored accounts and [currentUser] ([None] is [null]). *)
Record Session := {
  accounts : gmap jsstring (Account D);
  currentUser : option jsstring
}.

Inductive AccountEvent :=
| Signup (username password confirmPw : jsstring)
| Login (username password : jsstring)
| Guest
| Logout
| Save (data : D → D).   (* saveUserData, saveCompletedWorkouts, saveWorkoutToHistory *)

Definition entered (r : LoginResult D) (s : Session) : option jsstring :=
  match r with
  | LoggedIn username _ => Some username
  | LoginError _ => currentUser s
  end.

Definition account_step (s : Session) (e : AccountEvent) : option Session :=
  match e with
  | Signup username password confirmPw =>
      let '(r, accounts') := handleSignup (accounts s) username password confirmPw in
      Some {| accounts := accounts'; currentUser := entered r s |}
  | Login username password =>
      let r := handleLogin (accounts s) username password in
      Some {| accounts := accounts s; currentUser := entered r s |}
  | Guest => Some {| accounts := accounts s; currentUser := Some (lit "guest") |}
  | Logout => Some {| accounts := accounts s; currentUser := None |}
  | Save data =>
      match currentUser s with
      | Some u =>
          if negb (falsy u) && negb (eqb u (lit "guest"))
          then accounts' ← saveAccountData u data (accounts s);
               Some {| accounts := accounts'; currentUser := Some u |}
          else Some s
      | None => Some s
      end
  end.

Fixpoint account_run (s : Session) (events : list AccountEvent) : option Session :=
  match events with
  | [] => Some s
  | e :: events => s' ← account_step s e; account_run s' events
  end.

End Accounts.
Arguments accounts {D} _.
Arguments currentUser {D} _.
Arguments Signup {D} username password confirmPw.
Arguments Login {D} username password.
Arguments Guest {D}.
Arguments Logout {D}.
Arguments Save {D} data.

(** The user who is in has an account, unless it is the guest. *)
Definition signed_in {D} (s : Session D) : Prop :=
  match currentUser s with
  | Some u => falsy u = true ∨ u = lit "guest" ∨ is_Some (accounts s !! u)
  | None => True
  end.

(** Accounts stay, and keep their password. *)
Definition keeps {D} (m m' : gmap jsstring (Account D)) : Prop :=
  ∀ k a, m !! k = Some a →
    ∃ a', m' !! k = Some a' ∧ acct_password a' = acct_password a.

(** ** Proof automation for one step of the event loop *)

(** Opening the record first lets every field reduce. *)
Ltac open_world w :=
  destruct w as [wKey wVoice wAudio wVoices wChosen wSeq wTimer wSynth wClock
                   wTasks wNextHandle wNextUrl wQueue wTrace];
  cbn in *.

Ltac split_cases :=
  repeat (first [case_bool_decide | case_match]; cbn in *; simplify_eq).

(** Lookups in updated task tables, membership in extended traces. *)
Ltac map_cases :=
  repeat match goal with
  | H : context [<[_ := _]> _ !! _] |- _ => rewrite lookup_insert in H
  | H : context [delete _ _ !! _] |- _ => rewrite lookup_delete in H
  | H : _ ∈ _ ++ _ |- _ => apply elem_of_app in H as [H|H]
  | H : _ ∈ [_] |- _ => apply list_elem_of_singleton in H; subst
  | H : context [decide _] |- _ => case_decide; simplify_eq
  | |- context [<[_ := _]> _ !! _] => rewrite lookup_insert
  | |- context [delete _ _ !! _] => rewrite lookup_delete
  | |- context [decide _] => case_decide; simplify_eq
  end; cbn in *; simplify_eq.

Ltac timer_lookup :=
  repeat match goal with
  | Hb : is_timer (?m !! ?b), Hl : ?m !! ?b = _ |- _ => rewrite Hl in Hb; cbn in Hb
  end;
  try contradiction.

Ltac timer_facts :=
  repeat match goal with
  | H2 : ∀ h, is_timer (?m !! h) → _, Ha : ?m !! ?a = Some (AwaitDebounce _ _ _) |- _ =>
      let E := fresh "E" in
      assert (E : is_timer (m !! a)) by (rewrite Ha; exact I);
      apply H2 in E; revert Ha
  | H2 : ∀ h, is_timer (?m !! h) → _, Hb : is_timer (?m !! ?b) |- _ =>
      generalize (H2 _ Hb); revert Hb
  end; intros; simplify_eq.

(** * Properties *)

(** ** The code on small inputs *)

Example openai_clean_markdown :
  openai_clean (lit "**Go**" ++ [10%N] ++ lit " now ") = lit "Go.  now".
Proof. reflexivity. Qed.

(** U+1F525, in the class of line 49. *)
Example openai_clean_emoji : openai_clean [55357; 56613]%N = [].
Proof. reflexivity. Qed.

(** ["***"]: the first two stars match, the third stays. *)
Example strip_double_star_three : strip_double_star (lit "***") = lit "*".
Proof. reflexivity. Qed.

(** U+00E9 is not ASCII, and the local backend keeps it. *)
Example clean_e_acute :
  openai_clean [233%N] = [] ∧ browser_clean [233%N] = [233%N].
Proof. split; reflexivity. Qed.

(** U+1F634 is not in the class of line 121, but its high surrogate is
    half of an emoji that is: the low surrogate is left alone. *)
Example browser_clean_half : browser_clean [55357; 56884]%N = [56884%N].
Proof. reflexivity. Qed.

Example blank_spaces :
  blank (ArgString (lit "   ")) = true ∧ blank (ArgString (lit " a ")) = false.
Proof. split; reflexivity. Qed.

(** Two calls 100 ms apart with a credential: only the second reaches the
    network, and its audio plays. *)
Example burst_of_two :
  trace
    (run [CallSpeak (ArgString (lit "A")); Elapse 100;
          CallSpeak (ArgString (lit "B")); Elapse 250;
          TimerFire 0; TimerFire 1;
          FetchSettled 1 (Normal {| ok := true |});
          BlobSettled 1 (Normal tt); OpenAISettled 1]
       (initial (lit "sk-test") [] true)) =
  [SynthCancel; SetTimeout 0 250; ClearTimeout 0; SynthCancel; SetTimeout 1 250;
   CallOpenAI 1 (lit "B") 2; Fetch 1 (lit "sk-test") (lit "B") (lit "nova");
   AudioPlay 1 {| src := 0 |}].
Proof. by vm_compute. Qed.

(** ** Strings *)

Section Trim.

Lemma trimStart_whitespace s : whitespace_only s → trimStart s = [].
Proof.
  induction 1 as [|c r Hc _ IH]; simpl; [done|]. by rewrite Hc.
Qed.

Lemma trimStart_nil s : trimStart s = [] → whitespace_only s.
Proof.
  induction s as [|c r IH]; simpl; [constructor|].
  destruct (is_white_space c) eqn:Hc; [|done].
  intros Hr. constructor; auto. by apply IH.
Qed.

Lemma trimStart_split s :
  ∃ ws, s = ws ++ trimStart s ∧ whitespace_only ws.
Proof.
  induction s as [|c r (ws & Hs & Hws)]; simpl.
  - exists []. split; [done|constructor].
  - destruct (is_white_space c) eqn:Hc.
    + exists (c :: ws). split; [simpl; by rewrite <- Hs|by constructor].
    + exists []. split; [done|constructor].
Qed.

Lemma whitespace_only_rev s : whitespace_only (rev s) → whitespace_only s.
Proof.
  unfold whitespace_only. rewrite !List.Forall_forall.
  intros H c Hc. apply H. by apply (proj1 (in_rev s c)).
Qed.

Lemma trim_whitespace s : whitespace_only s → trim s = [].
Proof.
  intros H. unfold trim, trimEnd. by rewrite (trimStart_whitespace s H).
Qed.

Lemma trim_nil s : trim s = [] → whitespace_only s.
Proof.
  unfold trim, trimEnd. intros H.
  destruct (trimStart_split s) as (ws & Hs & Hws).
  assert (Hr : trimStart (rev (trimStart s)) = []).
  { apply (f_equal (@rev N)) in H. by rewrite rev_involutive in H. }
  apply trimStart_nil, whitespace_only_rev in Hr.
  rewrite Hs. by apply Forall_app.
Qed.

Lemma blank_whitespace s : blank (ArgString s) = true ↔ whitespace_only s.
Proof.
  simpl. split.
  - intros H. apply trim_nil. by destruct (trim s).
  - intros H. by rewrite trim_whitespace.
Qed.

End Trim.

(** ** Traces *)

Section Traces.

Lemma effects_of_app h l1 l2 :
  effects_of h (l1 ++ l2) = effects_of h l1 ++ effects_of h l2.
Proof. apply List.filter_app. Qed.

Lemma effects_of_emit h e w :
  effects_of h (trace (emit e w)) =
  effects_of h (trace w) ++ (if by_act h e then [e] else []).
Proof.
  simpl. rewrite effects_of_app. unfold effects_of at 2. simpl.
  by destruct (by_act h e).
Qed.

Lemma effects_of_emit_other h e w :
  act_of e ≠ Some h → effects_of h (trace (emit e w)) = effects_of h (trace w).
Proof.
  intros H. rewrite effects_of_emit. unfold by_act.
  rewrite bool_decide_eq_false_2; [|done]. by rewrite app_nil_r.
Qed.

Lemma effects_of_emit_own h e w :
  act_of e = Some h → effects_of h (trace (emit e w)) = effects_of h (trace w) ++ [e].
Proof.
  intros H. rewrite effects_of_emit. unfold by_act.
  by rewrite bool_decide_eq_true_2.
Qed.

Lemma effects_of_fresh h tr :
  (∀ e, e ∈ tr → act_of e ≠ Some h) → effects_of h tr = [].
Proof.
  induction tr as [|e tr IH]; intros H; [done|].
  unfold effects_of in *. simpl. unfold by_act at 1.
  rewrite bool_decide_eq_false_2.
  - apply IH. intros e' He'. apply H. by right.
  - apply H. by left.
Qed.

End Traces.

(** ** cancelAllSpeech *)

Section CancelAll.

Lemma cancelAllSpeech_speakSeq w :
  speakSeq (cancelAllSpeech w) = js_incr (speakSeq w).
Proof. unfold cancelAllSpeech, clearTimeout. open_world w. by split_cases. Qed.

Lemma cancelAllSpeech_pendingSpeakTimer w :
  pendingSpeakTimer (cancelAllSpeech w) = None.
Proof. unfold cancelAllSpeech, clearTimeout. open_world w. by split_cases. Qed.

Lemma cancelAllSpeech_currentTTSAudio w :
  currentTTSAudio (cancelAllSpeech w) = None.
Proof. unfold cancelAllSpeech, clearTimeout. open_world w. by split_cases. Qed.

Lemma cancelAllSpeech_frame w :
  let w' := cancelAllSpeech w in
  nextHandle w' = nextHandle w ∧ nextUrl w' = nextUrl w ∧ clock w' = clock w ∧
  openaiApiKey w' = openaiApiKey w ∧ openaiVoice w' = openaiVoice w ∧
  browserVoices w' = browserVoices w ∧ selectedVoiceId w' = selectedVoiceId w ∧
  hasSpeechSynthesis w' = hasSpeechSynthesis w.
Proof. unfold cancelAllSpeech, clearTimeout. open_world w. by split_cases. Qed.

(** The only task it can remove is the debounce timer it tracks. *)
Lemma cancelAllSpeech_suspended w h :
  suspended (cancelAllSpeech w) !! h =
  if bool_decide (pendingSpeakTimer w = Some h)
  then match suspended w !! h with
       | Some (AwaitDebounce _ _ _) => None
       | k => k
       end
  else suspended w !! h.
Proof.
  unfold cancelAllSpeech, clearTimeout. open_world w.
  split_cases; rewrite ?lookup_delete_eq, ?lookup_delete_ne by congruence;
    congruence.
Qed.

Lemma cancelAllSpeech_effects h w :
  effects_of h (trace (cancelAllSpeech w)) = effects_of h (trace w).
Proof.
  unfold cancelAllSpeech, clearTimeout. open_world w.
  split_cases; rewrite ?effects_of_app; unfold effects_of; simpl;
    by rewrite ?app_nil_r.
Qed.

Lemma cancelAllSpeech_trace w e :
  e ∈ trace (cancelAllSpeech w) → e ∈ trace w ∨ act_of e = None.
Proof.
  unfold cancelAllSpeech, clearTimeout. open_world w.
  split_cases; rewrite ?elem_of_app, ?list_elem_of_singleton;
    intros H; decompose [or] H; subst; auto.
Qed.

End CancelAll.

(** ** Array.prototype.find *)

Section Find.

Context {A : Type} (p : A → bool).

Lemma find_first_such l v : List.find p l = Some v → first_such p l v.
Proof.
  induction l as [|x l IH]; simpl; [done|].
  destruct (p x) eqn:Hx.
  - intros [= ->]. exists [], l. repeat split; [done|constructor].
  - intros (l1 & l2 & -> & Hv & Hl1)%IH.
    exists (x :: l1), l2. repeat split; [done|by constructor].
Qed.

Lemma find_none_such l : List.find p l = None → none_such p l.
Proof.
  induction l as [|x l IH]; simpl; [constructor|].
  destruct (p x) eqn:Hx; [done|]. intros H. constructor; auto. by apply IH.
Qed.

Lemma first_such_find l v : first_such p l v → List.find p l = Some v.
Proof.
  intros (l1 & l2 & -> & Hv & Hl1).
  induction Hl1 as [|x l1 Hx _ IH]; simpl; [by rewrite Hv|by rewrite Hx].
Qed.

Lemma none_such_find l : none_such p l → List.find p l = None.
Proof. induction 1 as [|x l Hx _ IH]; simpl; [done|by rewrite Hx]. Qed.

End Find.

(** ** The token *)

Section Token.

Lemma js_incr_ge x : x ≤ js_incr x.
Proof. unfold js_incr. case_match; lia. Qed.

Lemma js_incr_exact x : x ≤ MAX_SAFE_INTEGER → js_incr x = x + 1.
Proof. unfold js_incr. intros H. case_match; [done|lia]. Qed.

Lemma js_incr_range x :
  0 ≤ x ≤ MAX_SAFE_INTEGER + 1 → 0 ≤ js_incr x ≤ MAX_SAFE_INTEGER + 1.
Proof. unfold js_incr. case_match; lia. Qed.

Lemma speak_blank text w : blank text = true → speak text w = (Fulfilled, w).
Proof. destruct text as [| |s]; simpl; [done..|]. by intros ->. Qed.

Lemma speak_speakSeq s w :
  blank (ArgString s) = false →
  speakSeq (speak (ArgString s) w).2 = js_incr (speakSeq w).
Proof. simpl. intros ->. simpl. apply cancelAllSpeech_speakSeq. Qed.

(** Only line 144 writes the token. *)
Lemma step_speakSeq e w :
  speakSeq (step e w) =
  if supersedes e then js_incr (speakSeq w) else speakSeq w.
Proof.
  destruct e as [text| | | | | | | | | | | | | |]; simpl;
    try apply cancelAllSpeech_speakSeq.
  - destruct (blank text) eqn:Hb; simpl.
    + by rewrite speak_blank.
    + destruct text as [| |s]; try done. by apply speak_speakSeq.
  - done.
  - done.
  - unfold loadBrowserVoices. open_world w. by split_cases.
  - done.
  - unfold speak_debounced, await_adapter, speakWithOpenAI. open_world w.
    by split_cases.
  - unfold await_adapter, speakWithOpenAI_fetched. open_world w. by split_cases.
  - unfold await_adapter, speakWithOpenAI_json. open_world w. by split_cases.
  - unfold await_adapter, speakWithOpenAI_blob. open_world w. by split_cases.
  - unfold speak_resumed, speakBrowser. open_world w. by split_cases.
  - unfold audio_handler. by split_cases.
  - unfold audio_handler. by split_cases.
  - done.
  - done.
Qed.

Lemma step_speakSeq_mono e w : speakSeq w ≤ speakSeq (step e w).
Proof.
  rewrite step_speakSeq. destruct (supersedes e); [apply js_incr_ge|lia].
Qed.

Lemma run_app evs1 evs2 w : run (evs1 ++ evs2) w = run evs2 (run evs1 w).
Proof. apply fold_left_app. Qed.

Lemma run_speakSeq_mono evs w : speakSeq w ≤ speakSeq (run evs w).
Proof.
  revert w. induction evs as [|e evs IH]; intros w; simpl; [lia|].
  etrans; [apply (step_speakSeq_mono e)|apply IH].
Qed.

Lemma count_superseding_cons e evs :
  count_superseding (e :: evs) =
  (if supersedes e then 1 else 0) + count_superseding evs.
Proof. unfold count_superseding. simpl. destruct (supersedes e); simpl; lia. Qed.

Lemma count_superseding_nonneg evs : 0 ≤ count_superseding evs.
Proof. unfold count_superseding. lia. Qed.

Lemma run_speakSeq_exact evs w :
  speakSeq w + count_superseding evs ≤ MAX_SAFE_INTEGER + 1 →
  speakSeq (run evs w) = speakSeq w + count_superseding evs.
Proof.
  revert w. induction evs as [|e evs IH]; intros w.
  - unfold count_superseding. simpl. lia.
  - rewrite count_superseding_cons. intros H. simpl.
    pose proof (count_superseding_nonneg evs).
    rewrite IH; rewrite step_speakSeq; destruct (supersedes e);
      rewrite ?js_incr_exact; lia.
Qed.

Lemma count_superseding_le evs : count_superseding evs ≤ Z.of_nat (length evs).
Proof.
  unfold count_superseding. apply inj_le.
  induction evs as [|e evs IH]; simpl; [lia|]. destruct (supersedes e); simpl; lia.
Qed.

(** From a fresh page the token is the number of superseding calls made
    so far, for any session of at most [2^53] events. *)
Lemma token_counts_calls key voice synth evs :
  Z.of_nat (length evs) ≤ MAX_SAFE_INTEGER + 1 →
  speakSeq (run evs (initial key voice synth)) = count_superseding evs.
Proof.
  intros H. pose proof (count_superseding_le evs).
  rewrite run_speakSeq_exact; simpl; lia.
Qed.

End Token.

(** ** Well-formedness is kept by every event *)

Section Invariant.

Ltac inv_solve :=
  constructor; cbn in *; intros; map_cases;
  timer_lookup; timer_facts; timer_lookup;
  eauto using js_incr_range, Nat.lt_lt_succ_r; try lia.


Lemma Inv_initial key voice synth : Inv (initial key voice synth).
Proof. constructor; cbn; intros; simplify_map_eq; try done; try (by set_solver); unfold MAX_SAFE_INTEGER; lia. Qed.

Lemma Inv_step e w : Inv w → Inv (step e w).
Proof.
intros [H1 H2 H3 H4 H5].
destruct e as [text| | | | | | | | | | | | | |]; simpl.
- destruct text as [| |s]; simpl; try (by constructor).
  destruct (falsy (trim s)); simpl; [by constructor|].
  unfold cancelAllSpeech, clearTimeout. open_world w. split_cases.
  all: inv_solve.
- unfold cancelAllSpeech, clearTimeout. open_world w. split_cases.
  all: inv_solve.
- by constructor.
- by constructor.
- unfold loadBrowserVoices. open_world w. split_cases; by constructor.
- by constructor.
- unfold speak_debounced, await_adapter, speakWithOpenAI, stale.
  open_world w. split_cases; try (by constructor).
  all: inv_solve.
- unfold await_adapter, speakWithOpenAI_fetched, stale.
  open_world w. split_cases; try (by constructor).
  all: inv_solve.
- unfold await_adapter, speakWithOpenAI_json.
  open_world w. split_cases; try (by constructor).
  all: inv_solve.
- unfold await_adapter, speakWithOpenAI_blob, stale.
  open_world w. split_cases; try (by constructor).
  all: inv_solve.
- unfold speak_resumed, speakBrowser, stale.
  open_world w. split_cases; try (by constructor).
  all: inv_solve.
- unfold audio_handler. open_world w. split_cases; try (by constructor).
  all: inv_solve.
- unfold audio_handler. open_world w. split_cases; try (by constructor).
  all: inv_solve.
- inv_solve.
- by constructor.
Qed.
End Invariant.

(** ** An inert activation stays silent *)

Section Inert.

Lemma effects_of_snoc h tr e :
  effects_of h (tr ++ [e]) = effects_of h tr ++ (if by_act h e then [e] else []).
Proof. rewrite effects_of_app. unfold effects_of at 2. simpl. by destruct (by_act h e). Qed.

Ltac inert_solve :=
  rewrite ?effects_of_snoc; unfold by_act; cbn;
  map_cases; repeat (case_bool_decide; simplify_eq); rewrite ?app_nil_r;
  try (split; [split; [lia|]|done]);
  first [ lia | done | by left
        | right; eexists _, _, _; split; [done|lia]
        | idtac ].

Lemma inert_step h e w :
  inert h w →
  inert h (step e w) ∧ effects_of h (trace (step e w)) = effects_of h (trace w).
Proof.
  intros [Hlt Hd]. pose proof (js_incr_ge (speakSeq w)) as Hge.
  destruct e as [text| | | | | | | | | | | | | |]; simpl.
  - destruct text as [| |s]; simpl; try done.
    destruct (falsy (trim s)); simpl; [done|].
    unfold inert, cancelAllSpeech, clearTimeout. open_world w.
    destruct Hd as [Hd|(t & q & b & Hd & Hq)]; split_cases.
    all: inert_solve.
  - unfold inert, cancelAllSpeech, clearTimeout. open_world w.
    destruct Hd as [Hd|(t & q & b & Hd & Hq)]; split_cases.
    all: inert_solve.
  - done.
  - done.
  - unfold inert, loadBrowserVoices. open_world w. by split_cases.
  - done.
  - unfold inert, speak_debounced, await_adapter, speakWithOpenAI, stale.
    open_world w.
    destruct Hd as [Hd|(t & q & b & Hd & Hq)]; split_cases.
    all: inert_solve.
  - unfold inert, await_adapter, speakWithOpenAI_fetched, stale.
    open_world w.
    destruct Hd as [Hd|(t & q & b & Hd & Hq)]; split_cases.
    all: inert_solve.
  - unfold inert, await_adapter, speakWithOpenAI_json.
    open_world w.
    destruct Hd as [Hd|(t & q & b & Hd & Hq)]; split_cases.
    all: inert_solve.
  - unfold inert, await_adapter, speakWithOpenAI_blob, stale.
    open_world w.
    destruct Hd as [Hd|(t & q & b & Hd & Hq)]; split_cases.
    all: inert_solve.
  - unfold inert, speak_resumed, speakBrowser, stale.
    open_world w.
    destruct Hd as [Hd|(t & q & b & Hd & Hq)]; split_cases.
    all: inert_solve.
  - unfold inert, audio_handler. open_world w.
    destruct Hd as [Hd|(t & q & b & Hd & Hq)]; split_cases.
    all: inert_solve.
  - unfold inert, audio_handler. open_world w.
    destruct Hd as [Hd|(t & q & b & Hd & Hq)]; split_cases.
    all: inert_solve.
  - unfold inert. open_world w.
    destruct Hd as [Hd|(t & q & b & Hd & Hq)]; split_cases.
    all: inert_solve.
  - done.
Qed.
End Inert.

(** ** Schedules *)

Section Schedules.

Lemma Inv_run evs w : Inv w → Inv (run evs w).
Proof.
  revert w. induction evs as [|e evs IH]; intros w Hw; simpl; [done|].
  by apply IH, Inv_step.
Qed.

(** Every world the page can reach is well-formed. *)
Lemma Inv_reachable key voice synth evs : Inv (run evs (initial key voice synth)).
Proof. apply Inv_run, Inv_initial. Qed.

Lemma inert_run h evs w :
  inert h w →
  inert h (run evs w) ∧ effects_of h (trace (run evs w)) = effects_of h (trace w).
Proof.
  revert w. induction evs as [|e evs IH]; intros w Hw; simpl; [done|].
  destruct (inert_step h e w Hw) as [Hw' He].
  destruct (IH _ Hw') as [Hw'' He']. split; [done|congruence].
Qed.

Lemma step_clock e w : clock (step e w) = (clock w + elapsed [e])%nat.
Proof.
  destruct e as [text| | | | | | | | | | | | | |]; simpl.
  - destruct text as [| |s]; simpl; try lia.
    destruct (falsy (trim s)); simpl; [lia|].
    pose proof (cancelAllSpeech_frame w) as (_ & _ & -> & _). lia.
  - pose proof (cancelAllSpeech_frame w) as (_ & _ & -> & _). lia.
  - lia.
  - lia.
  - unfold loadBrowserVoices. open_world w. split_cases; lia.
  - lia.
  - unfold speak_debounced, await_adapter, speakWithOpenAI. open_world w.
    split_cases; lia.
  - unfold await_adapter, speakWithOpenAI_fetched. open_world w. split_cases; lia.
  - unfold await_adapter, speakWithOpenAI_json. open_world w. split_cases; lia.
  - unfold await_adapter, speakWithOpenAI_blob. open_world w. split_cases; lia.
  - unfold speak_resumed, speakBrowser. open_world w. split_cases; lia.
  - unfold audio_handler. split_cases; lia.
  - unfold audio_handler. split_cases; lia.
  - lia.
  - lia.
Qed.

Lemma elapsed_app evs1 evs2 :
  elapsed (evs1 ++ evs2) = (elapsed evs1 + elapsed evs2)%nat.
Proof.
  induction evs1 as [|e evs1 IH]; simpl; [done|]. destruct e; lia.
Qed.

Lemma run_clock evs w : clock (run evs w) = (clock w + elapsed evs)%nat.
Proof.
  revert w. induction evs as [|e evs IH]; intros w; simpl; [lia|].
  rewrite IH, step_clock. simpl. destruct e; lia.
Qed.

Lemma same_for_refl h w w' :
  suspended w' = suspended w → speakSeq w' = speakSeq w →
  openaiApiKey w' = openaiApiKey w →
  hasSpeechSynthesis w' = hasSpeechSynthesis w → trace w' = trace w →
  same_for h w w'.
Proof. intros H1 H2 H3 H4 H5. unfold same_for. by rewrite H1, H2, H3, H4, H5. Qed.

Lemma same_for_trans h w1 w2 w3 :
  same_for h w1 w2 → same_for h w2 w3 → same_for h w1 w3.
Proof.
  intros (? & ? & ? & ? & ?) (? & ? & ? & ? & ?). repeat split; congruence.
Qed.

Ltac frame_solve :=
  unfold same_for; cbn;
  rewrite ?effects_of_snoc; unfold by_act; cbn;
  map_cases; repeat (case_bool_decide; simplify_eq); rewrite ?app_nil_r;
  try done.

(** A bystander of [h] changes nothing [h] can see. *)
Lemma bystander_step h e w : bystander h e = true → same_for h w (step e w).
Proof.
  unfold bystander. intros He.
  destruct e as [text| | | | | | | | | | | | | |]; cbn in He;
    try discriminate He.
  1: { simpl. rewrite speak_blank; [by apply same_for_refl|].
       by destruct (blank text). }
  all: simpl;
    unfold setOAIVoice, loadBrowserVoices, speak_debounced, speak_resumed,
      await_adapter, speakWithOpenAI, speakWithOpenAI_fetched,
      speakWithOpenAI_json, speakWithOpenAI_blob, speakBrowser,
      audio_handler, stale;
    open_world w; split_cases; frame_solve.
Qed.

Lemma bystander_run h evs w :
  Forall (fun e => bystander h e = true) evs → same_for h w (run evs w).
Proof.
  intros H. revert w. induction H as [|e evs He _ IH]; intros w; simpl.
  - by apply same_for_refl.
  - eapply same_for_trans; [by apply bystander_step|apply IH].
Qed.

End Schedules.

(** ** One activation, step by step *)

Section Activation.

Ltac act_solve :=
  unfold same_for; cbn; rewrite ?effects_of_snoc; unfold by_act; cbn;
  map_cases; repeat (case_bool_decide; simplify_eq); rewrite ?app_nil_r;
  repeat split; try done; try lia;
  intros; rewrite ?effects_of_snoc; unfold by_act; cbn; rewrite ?app_nil_r;
  try done.

(** Lines 158-170: a call that passes the guard. *)
Lemma speak_started s w :
  blank (ArgString s) = false →
  let h := nextHandle w in
  let w' := step (CallSpeak (ArgString s)) w in
  speak (ArgString s) w = (Pending h, w') ∧
  suspended w' !! h =
    Some (AwaitDebounce (clock w + 250) s (js_incr (speakSeq w))) ∧
  speakSeq w' = js_incr (speakSeq w) ∧
  openaiApiKey w' = openaiApiKey w ∧
  hasSpeechSynthesis w' = hasSpeechSynthesis w ∧
  nextHandle w' = S h ∧
  clock w' = clock w ∧
  pendingSpeakTimer w' = Some h ∧
  ∀ h', effects_of h' (trace w') = effects_of h' (trace w).
Proof.
  simpl. intros ->. unfold cancelAllSpeech, clearTimeout. open_world w.
  split_cases; act_solve.
Qed.

(** Lines 166-173: the debounce timer of a current activation fires. *)
Lemma timer_fired h d t q w :
  suspended w !! h = Some (AwaitDebounce d t q) →
  (d ≤ clock w)%nat →
  speakSeq w = q →
  let w' := step (TimerFire h) w in
  speakSeq w' = q ∧
  openaiApiKey w' = openaiApiKey w ∧
  openaiVoice w' = openaiVoice w ∧
  hasSpeechSynthesis w' = hasSpeechSynthesis w ∧
  nextHandle w' = nextHandle w ∧
  if falsy (openaiApiKey w) || falsy (openai_clean t)
  then suspended w' !! h = Some (AwaitOpenAI t q (Normal false)) ∧
       effects_of h (trace w') = effects_of h (trace w) ++ [CallOpenAI h t q]
  else suspended w' !! h = Some (AwaitFetch t q) ∧
       effects_of h (trace w') =
         effects_of h (trace w) ++
         [CallOpenAI h t q; Fetch h (openaiApiKey w) (openai_clean t) (openaiVoice w)].
Proof.
  simpl. intros -> Hd <-. apply Nat.leb_le in Hd. rewrite Hd.
  unfold speak_debounced, await_adapter, speakWithOpenAI, stale.
  open_world w. rewrite Z.eqb_refl. cbn.
  split_cases; act_solve. by rewrite <- app_assoc.
Qed.

(** Lines 72-79: the response arrives under the current token. *)
Lemma fetch_settled h t q response w :
  suspended w !! h = Some (AwaitFetch t q) →
  speakSeq w = q →
  let w' := step (FetchSettled h (Normal response)) w in
  same_for h (set_suspended (<[h := if ok response then AwaitBlob t q
                                   else AwaitJson t q]> (suspended w)) w) w' ∧
  nextHandle w' = nextHandle w.
Proof.
  simpl. intros -> <-. unfold await_adapter, speakWithOpenAI_fetched, stale.
  open_world w. rewrite Z.eqb_refl. cbn. destruct response as [[|]]; act_solve.
Qed.

(** Lines 75-76: the error body was read, or could not be. *)
Lemma json_settled h t q r w :
  suspended w !! h = Some (AwaitJson t q) →
  let w' := step (JsonSettled h r) w in
  same_for h (set_suspended (<[h := AwaitOpenAI t q (Normal false)]> (suspended w)) w) w' ∧
  nextHandle w' = nextHandle w.
Proof.
  simpl. intros ->. unfold await_adapter, speakWithOpenAI_json.
  open_world w. destruct r; act_solve.
Qed.

(** Lines 174-175: the adapter did not speak and the token is current. *)
Lemma resumed_fallback h t q w :
  suspended w !! h = Some (AwaitOpenAI t q (Normal false)) →
  speakSeq w = q →
  let w' := step (OpenAISettled h) w in
  suspended w' !! h = None ∧
  nextHandle w' = nextHandle w ∧
  effects_of h (trace w') = effects_of h (trace w) ++ browser_effects h t w'.
Proof.
  simpl. intros -> <-. unfold speak_resumed, speakBrowser, stale, browser_effects.
  open_world w. rewrite Z.eqb_refl. cbn.
  destruct wSynth, (falsy (browser_clean t)); cbn;
    act_solve; by rewrite <- ?app_assoc.
Qed.

(** Lines 72 and 89: the response arrives, or the request fails, after
    the token has moved on. *)
Lemma fetch_settled_stale h t q r w :
  suspended w !! h = Some (AwaitFetch t q) →
  q < speakSeq w →
  let w' := step (FetchSettled h r) w in
  (∃ b, suspended w' !! h = Some (AwaitOpenAI t q (Normal b))) ∧
  currentTTSAudio w' = currentTTSAudio w ∧
  nextUrl w' = nextUrl w ∧
  synthQueue w' = synthQueue w ∧
  speakSeq w' = speakSeq w ∧
  nextHandle w' = nextHandle w ∧
  effects_of h (trace w') = effects_of h (trace w).
Proof.
  simpl. intros -> Hq. unfold await_adapter, speakWithOpenAI_fetched, stale.
  open_world w. destruct r as [response|e]; cbn.
  - destruct (Z.eqb_spec wSeq q); [lia|]. cbn. act_solve. by eexists.
  - act_solve. by eexists.
Qed.

(** Lines 80 and 89: the same for the payload. *)
Lemma blob_settled_stale h t q r w :
  suspended w !! h = Some (AwaitBlob t q) →
  q < speakSeq w →
  let w' := step (BlobSettled h r) w in
  (∃ b, suspended w' !! h = Some (AwaitOpenAI t q (Normal b))) ∧
  currentTTSAudio w' = currentTTSAudio w ∧
  nextUrl w' = nextUrl w ∧
  synthQueue w' = synthQueue w ∧
  speakSeq w' = speakSeq w ∧
  nextHandle w' = nextHandle w ∧
  effects_of h (trace w') = effects_of h (trace w).
Proof.
  simpl. intros -> Hq. unfold await_adapter, speakWithOpenAI_blob, stale.
  open_world w. destruct r as [response|e]; cbn.
  - destruct (Z.eqb_spec wSeq q); [lia|]. cbn. act_solve. by eexists.
  - act_solve. by eexists.
Qed.

End Activation.

(** ** The debounce window *)

Section Debounce.

Ltac deb_solve :=
  rewrite ?effects_of_snoc; unfold by_act; cbn;
  map_cases; repeat (case_bool_decide; simplify_eq); rewrite ?app_nil_r;
  try congruence;
  repeat split; try done; try lia;
  first [ by left | by (right; eexists _, _) | idtac ].

(** Before its deadline a debouncing activation stays as it is, unless a
    cancellation drops its timer. *)
Lemma debouncing_step h d e w :
  debouncing h d w → (clock w < d)%nat → debouncing h d (step e w).
Proof.
  intros (Hlt & Heff & Hd) Hclock.
  assert (Hleb : (d <=? clock w)%nat = false) by (apply Nat.leb_gt; lia).
  destruct e as [text| | | | | | | | | | | | | |]; simpl.
  1: { destruct text as [| |s]; simpl; try done.
       destruct (falsy (trim s)); simpl; [done|].
       unfold debouncing, cancelAllSpeech, clearTimeout. open_world w.
       destruct Hd as [Hd|(t & q & Hd)]; split_cases; deb_solve. }
  all: unfold debouncing, cancelAllSpeech, clearTimeout, setOAIKey,
      setOAIVoice, loadBrowserVoices, speak_debounced, speak_resumed,
      await_adapter, speakWithOpenAI, speakWithOpenAI_fetched,
      speakWithOpenAI_json, speakWithOpenAI_blob, speakBrowser,
      audio_handler, stale;
    open_world w;
    destruct Hd as [Hd|(t & q & Hd)]; split_cases; deb_solve.
Qed.

Lemma debouncing_run h d evs w :
  debouncing h d w → (clock w + elapsed evs < d)%nat →
  debouncing h d (run evs w).
Proof.
  revert w. induction evs as [|e evs IH]; intros w Hw Hclock; simpl; [done|].
  apply IH.
  - apply debouncing_step; [done|]. simpl in Hclock. destruct e; lia.
  - rewrite step_clock. simpl in *. destruct e; lia.
Qed.

(** A superseding event finds the timer in [pendingSpeakTimer] and
    clears it: the activation is gone without a trace. *)
Lemma debouncing_superseded h d e w :
  Inv w → debouncing h d w → supersedes e = true →
  inert h (step e w) ∧ effects_of h (trace (step e w)) = [].
Proof.
  intros [_ H2 _ _ _] (Hlt & Heff & Hd) He.
  destruct e as [text| | | | | | | | | | | | | |]; try discriminate He; simpl.
  - destruct text as [| |s]; simpl in *; try done.
    destruct (falsy (trim s)); simpl in *; [done|].
    unfold inert, cancelAllSpeech, clearTimeout. open_world w.
    destruct Hd as [Hd|(t & q & Hd)]; split_cases; deb_solve;
      timer_lookup; timer_facts; timer_lookup; try lia.
  - unfold inert, cancelAllSpeech, clearTimeout. open_world w.
    destruct Hd as [Hd|(t & q & Hd)]; split_cases; deb_solve;
      timer_lookup; timer_facts; timer_lookup; try lia.
Qed.

End Debounce.

(** * The specification's statements, one by one *)

Section SharedFacts.

Lemma effects_of_nil_not_in h tr e :
  effects_of h tr = [] → act_of e = Some h → e ∉ tr.
Proof.
  intros Hnil Hact Hin.
  assert (Hf : In e (effects_of h tr)).
  { apply List.filter_In. split; [by apply list_elem_of_In|].
    unfold by_act. by apply bool_decide_eq_true_2. }
  rewrite Hnil in Hf. destruct Hf.
Qed.

(** A handle that was not handed out yet has no trace. *)
Lemma effects_of_next w : Inv w → effects_of (nextHandle w) (trace w) = [].
Proof.
  intros Hw. apply effects_of_fresh. intros e He Hact.
  pose proof (inv_trace w Hw e _ He Hact). lia.
Qed.

Lemma speak_pending s w h w' :
  speak (ArgString s) w = (Pending h, w') →
  blank (ArgString s) = false ∧ h = nextHandle w ∧
  w' = step (CallSpeak (ArgString s)) w.
Proof.
  intros H. destruct (blank (ArgString s)) eqn:Hb.
  - by rewrite speak_blank in H.
  - destruct (speak_started s w Hb) as (Hs & _). rewrite Hs in H.
    by simplify_eq.
Qed.

End SharedFacts.

(** C1.  If [speak(A)] is followed by a superseding call (a [speak(B)] that
    passes the guard, or [cancelAllSpeech()]) while fewer than 250 ms have
    passed, then, whatever happens before, between and after, activation A
    never does anything at a backend: [speakWithOpenAI] and [speakBrowser]
    are never called for it, nothing is fetched, played or spoken for it.
    In a burst every call but the last is followed by such a call. *)
Theorem debounce_abandons_superseded
    (w wA : World) (hA : nat) (textA : jsstring) (b : Event)
    (evs1 evs2 : list Event) :
  Inv w →
  speak (ArgString textA) w = (Pending hA, wA) →
  (elapsed evs1 < 250)%nat →
  supersedes b = true →
  let final := run (evs1 ++ b :: evs2) wA in
  effects_of hA (trace final) = [] ∧
  (∀ t q, CallOpenAI hA t q ∉ trace final) ∧
  (∀ t, CallBrowser hA t ∉ trace final).
Proof.
  intros Hw Hspeak Hel Hb final.
  destruct (speak_pending _ _ _ _ Hspeak) as (Hblank & -> & ->).
  destruct (speak_started textA w Hblank)
    as (_ & Hsusp & _ & _ & _ & Hnext & Hclock & _ & Heff).
  set (wA := step (CallSpeak (ArgString textA)) w) in *.
  assert (Hdeb : debouncing (nextHandle w) (clock w + 250) wA).
  { repeat split.
    - rewrite Hnext. lia.
    - rewrite Heff. by apply effects_of_next.
    - right. by eexists _, _. }
  assert (Hdeb1 : debouncing (nextHandle w) (clock w + 250) (run evs1 wA)).
  { apply debouncing_run; [done|]. rewrite Hclock. lia. }
  assert (Hinv1 : Inv (run evs1 wA)) by by apply Inv_run, Inv_step.
  destruct (debouncing_superseded _ _ b _ Hinv1 Hdeb1 Hb) as [Hinert Hnil].
  destruct (inert_run _ evs2 _ Hinert) as [_ Hsame].
  assert (Hfinal : effects_of (nextHandle w) (trace final) = []).
  { unfold final. rewrite run_app. simpl. by rewrite Hsame. }
  split; [done|].
  split; intros; by apply (effects_of_nil_not_in (nextHandle w)).
Qed.

Lemma debounce_abandons_superseded_witness :
  let w := initial (lit "sk-test") [] true in
  let final :=
    run ([Elapse 100] ++ CallSpeak (ArgString (lit "B")) ::
         [Elapse 300; TimerFire 0; TimerFire 1; FetchSettled 0 (Normal {| ok := true |})])
        (speak (ArgString (lit "A")) w).2 in
  effects_of 0 (trace final) = [] ∧
  (∀ t q, CallOpenAI 0 t q ∉ trace final) ∧
  (∀ t, CallBrowser 0 t ∉ trace final).
Proof.
  intros w.
  apply (debounce_abandons_superseded w _ 0%nat (lit "A")
           (CallSpeak (ArgString (lit "B"))) [Elapse 100]).
  - apply Inv_initial.
  - reflexivity.
  - simpl. lia.
  - reflexivity.
Defined.

(** C2.  When the request of activation [h], issued under token [T],
    settles (at the response or at the payload) after the token has moved
    past [T], the adapter returns without creating or playing audio and
    without throwing, and nothing is ever done for [h] from then on: in
    particular [speakBrowser] is not called for it. *)
Theorem stale_response_discarded
    (w : World) (h : nat) (text : jsstring) (T : Z) (evs : list Event) :
  Inv w →
  T < speakSeq w →
  (∀ r, suspended w !! h = Some (AwaitFetch text T) →
        let w' := step (FetchSettled h r) w in
        (∃ b, suspended w' !! h = Some (AwaitOpenAI text T (Normal b))) ∧
        currentTTSAudio w' = currentTTSAudio w ∧
        nextUrl w' = nextUrl w ∧
        effects_of h (trace (run evs w')) = effects_of h (trace w)) ∧
  (∀ r, suspended w !! h = Some (AwaitBlob text T) →
        let w' := step (BlobSettled h r) w in
        (∃ b, suspended w' !! h = Some (AwaitOpenAI text T (Normal b))) ∧
        currentTTSAudio w' = currentTTSAudio w ∧
        nextUrl w' = nextUrl w ∧
        effects_of h (trace (run evs w')) = effects_of h (trace w)).
Proof.
  intros Hw HT. split; intros r Hsusp w'.
  - destruct (fetch_settled_stale h text T r w Hsusp HT)
      as ((b & Hb) & Haudio & Hurl & _ & Hseq & Hnext & Heff).
    fold w' in Hb, Haudio, Hurl, Hseq, Hnext, Heff.
    assert (Hinert : inert h w').
    { split.
      - rewrite Hnext. by eapply inv_handles.
      - right. exists text, T, b. split; [done|]. by rewrite Hseq. }
    destruct (inert_run h evs w' Hinert) as [_ Hrun].
    repeat split; eauto. by rewrite Hrun.
  - destruct (blob_settled_stale h text T r w Hsusp HT)
      as ((b & Hb) & Haudio & Hurl & _ & Hseq & Hnext & Heff).
    fold w' in Hb, Haudio, Hurl, Hseq, Hnext, Heff.
    assert (Hinert : inert h w').
    { split.
      - rewrite Hnext. by eapply inv_handles.
      - right. exists text, T, b. split; [done|]. by rewrite Hseq. }
    destruct (inert_run h evs w' Hinert) as [_ Hrun].
    repeat split; eauto. by rewrite Hrun.
Qed.

Lemma stale_response_discarded_witness :
  let w := run [CallSpeak (ArgString (lit "hello")); Elapse 250; TimerFire 0;
                CallCancelAll] (initial (lit "sk-test") [] true) in
  let w' := step (FetchSettled 0 (Normal {| ok := true |})) w in
  let v := run [CallSpeak (ArgString (lit "hello")); Elapse 250; TimerFire 0;
                FetchSettled 0 (Normal {| ok := true |}); CallCancelAll]
             (initial (lit "sk-test") [] true) in
  let v' := step (BlobSettled 0 (Normal tt)) v in
  ((∃ b, suspended w' !! 0%nat = Some (AwaitOpenAI (lit "hello") 1 (Normal b))) ∧
   currentTTSAudio w' = currentTTSAudio w ∧
   nextUrl w' = nextUrl w ∧
   effects_of 0 (trace (run [OpenAISettled 0] w')) = effects_of 0 (trace w)) ∧
  ((∃ b, suspended v' !! 0%nat = Some (AwaitOpenAI (lit "hello") 1 (Normal b))) ∧
   currentTTSAudio v' = currentTTSAudio v ∧
   nextUrl v' = nextUrl v ∧
   effects_of 0 (trace (run [OpenAISettled 0] v')) = effects_of 0 (trace v)).
Proof.
  intros w w' v v'. split.
  - apply (proj1 (stale_response_discarded w 0%nat (lit "hello") 1 [OpenAISettled 0]
                    (Inv_run _ _ (Inv_initial _ _ _)) eq_refl)).
    vm_compute. reflexivity.
  - apply (proj2 (stale_response_discarded v 0%nat (lit "hello") 1 [OpenAISettled 0]
                    (Inv_run _ _ (Inv_initial _ _ _)) eq_refl)).
    vm_compute. reflexivity.
Defined.

(** ** Falling back to the local backend *)

Section Fallback.

Variables (w : World) (text : jsstring) (evs1 evs2 : list Event).

Let h := nextHandle w.
Let seq := js_incr (speakSeq w).

Hypothesis Hw : Inv w.
Hypothesis Hblank : blank (ArgString text) = false.
Hypothesis Hevs1 : Forall (fun e => bystander h e = true) evs1.
Hypothesis Hdue : (250 ≤ elapsed evs1)%nat.

(** The worlds when the debounce timer is about to fire, and after. *)
Let wb := run evs1 (step (CallSpeak (ArgString text)) w).
Let w1 := run (CallSpeak (ArgString text) :: evs1 ++ [TimerFire h]) w.

Lemma debounce_elapsed :
  suspended wb !! h = Some (AwaitDebounce (clock w + 250) text seq) ∧
  (clock w + 250 ≤ clock wb)%nat ∧
  speakSeq wb = seq ∧
  openaiApiKey wb = openaiApiKey w ∧
  effects_of h (trace wb) = [] ∧
  Inv wb ∧
  w1 = step (TimerFire h) wb.
Proof.
  destruct (speak_started text w Hblank)
    as (_ & Hsusp & Hseq & Hkey & _ & _ & Hclock & _ & Heff).
  destruct (bystander_run h evs1 (step (CallSpeak (ArgString text)) w) Hevs1)
    as (Hs & Hq & Hk & _ & He).
  fold wb in Hs, Hq, Hk, He.
  split_and!.
  - by rewrite Hs.
  - unfold wb. rewrite run_clock, Hclock. lia.
  - by rewrite Hq.
  - by rewrite Hk.
  - rewrite He, Heff. by apply effects_of_next.
  - by apply Inv_run, Inv_step.
  - unfold w1, wb.
    change (CallSpeak (ArgString text) :: evs1 ++ [TimerFire h])
      with ([CallSpeak (ArgString text)] ++ evs1 ++ [TimerFire h]).
    by rewrite !run_app.
Qed.

(** The adapter returns [false] in the turn of the timer, having
    fetched nothing; when [speak] resumes uncontested it calls
    [speakBrowser] once, and that is all the activation ever does. *)
Lemma silent_adapter_falls_back :
  falsy (openaiApiKey w) || falsy (openai_clean text) = true →
  Forall (fun e => bystander h e = true) evs2 →
  let w2 := run (evs2 ++ [OpenAISettled h]) w1 in
  suspended w1 !! h = Some (AwaitOpenAI text seq (Normal false)) ∧
  effects_of h (trace w1) = [CallOpenAI h text seq] ∧
  effects_of h (trace w2) = CallOpenAI h text seq :: browser_effects h text w2 ∧
  ∀ evs3, effects_of h (trace (run evs3 w2)) = effects_of h (trace w2).
Proof.
  intros Hsilent Hevs2 w2.
  destruct debounce_elapsed as (Hsusp & Hclock & Hseq & Hkey & Heff & Hinv & Hw1).
  destruct (timer_fired h _ text seq wb Hsusp Hclock Hseq)
    as (Hseq1 & _ & _ & _ & _ & Hfired).
  rewrite Hkey, Hsilent, <- Hw1, Heff in Hfired. destruct Hfired as [Hsusp1 Heff1].
  rewrite <- Hw1 in Hseq1.
  destruct (bystander_run h evs2 w1 Hevs2) as (Hs & Hq & _ & _ & He).
  set (wc := run evs2 w1) in *.
  assert (Hinvc : Inv wc).
  { unfold wc. rewrite Hw1. by apply Inv_run, Inv_step. }
  assert (Hsuspc : suspended wc !! h = Some (AwaitOpenAI text seq (Normal false)))
    by by rewrite Hs.
  assert (Hw2 : w2 = step (OpenAISettled h) wc).
  { unfold w2, wc. by rewrite run_app. }
  destruct (resumed_fallback h text seq wc Hsuspc) as (Hnone & Hnext & Heff2).
  { by rewrite Hq. }
  rewrite <- Hw2, He, Heff1 in Heff2.
  split_and!; try done.
  intros evs3. apply inert_run. split.
  - rewrite Hw2, Hnext. by eapply inv_handles.
  - left. by rewrite Hw2.
Qed.

(** The request is sent; it comes back with a non-success status; the
    error body is read (or not); the adapter returns [false]; [speak]
    resumes uncontested and calls [speakBrowser] once. *)
Lemma failed_request_falls_back (evs3 evs4 : list Event)
    (rj : completion (option jsstring)) :
  falsy (openaiApiKey w) = false →
  falsy (openai_clean text) = false →
  Forall (fun e => bystander h e = true) evs2 →
  Forall (fun e => bystander h e = true) evs3 →
  Forall (fun e => bystander h e = true) evs4 →
  let sent := [CallOpenAI h text seq;
               Fetch h (openaiApiKey w) (openai_clean text) (openaiVoice w1)] in
  let w2 := run (evs2 ++ [FetchSettled h (Normal {| ok := false |})] ++
                 evs3 ++ [JsonSettled h rj]) w1 in
  let w3 := run (evs4 ++ [OpenAISettled h]) w2 in
  effects_of h (trace w1) = sent ∧
  suspended w2 !! h = Some (AwaitOpenAI text seq (Normal false)) ∧
  effects_of h (trace w2) = sent ∧
  effects_of h (trace w3) = sent ++ browser_effects h text w3 ∧
  ∀ evs5, effects_of h (trace (run evs5 w3)) = effects_of h (trace w3).
Proof.
  intros Hkey' Hclean Hevs2 Hevs3 Hevs4 sent w2 w3.
  destruct debounce_elapsed as (Hsusp & Hclock & Hseq & Hkey & Heff & Hinv & Hw1).
  destruct (timer_fired h _ text seq wb Hsusp Hclock Hseq)
    as (Hseq1 & _ & Hvoice & _ & _ & Hfired).
  rewrite Hkey, Hkey', Hclean, <- Hw1, Heff in Hfired. simpl in Hfired.
  rewrite <- Hw1 in Hseq1, Hvoice. rewrite <- Hvoice in Hfired.
  destruct Hfired as [Hsusp1 Heff1]. fold sent in Heff1.
  (* bystanders, then the response *)
  destruct (bystander_run h evs2 w1 Hevs2) as (Hs2 & Hq2 & _ & _ & He2).
  set (wc := run evs2 w1) in *.
  assert (Hsuspc : suspended wc !! h = Some (AwaitFetch text seq)) by by rewrite Hs2.
  destruct (fetch_settled h text seq {| ok := false |} wc Hsuspc)
    as ((Hsd & Hqd & _ & _ & Hed) & _).
  { by rewrite Hq2. }
  set (wd := step (FetchSettled h (Normal {| ok := false |})) wc) in *.
  simpl in Hsd, Hqd, Hed. rewrite lookup_insert_eq in Hsd.
  (* bystanders, then the error body *)
  destruct (bystander_run h evs3 wd Hevs3) as (Hs3 & Hq3 & _ & _ & He3).
  set (we := run evs3 wd) in *.
  assert (Hsuspe : suspended we !! h = Some (AwaitJson text seq)) by by rewrite Hs3.
  destruct (json_settled h text seq rj we Hsuspe) as ((Hsf & Hqf & _ & _ & Hef) & _).
  assert (Hw2 : w2 = step (JsonSettled h rj) we).
  { unfold w2, we, wd, wc. by rewrite !run_app. }
  rewrite <- Hw2 in Hsf, Hqf, Hef.
  simpl in Hsf, Hqf, Hef. rewrite lookup_insert_eq in Hsf.
  (* bystanders, then speak resumes *)
  destruct (bystander_run h evs4 w2 Hevs4) as (Hs4 & Hq4 & _ & _ & He4).
  set (wg := run evs4 w2) in *.
  assert (Hsuspg : suspended wg !! h = Some (AwaitOpenAI text seq (Normal false)))
    by by rewrite Hs4.
  assert (Hinvg : Inv wg).
  { unfold wg. rewrite Hw2. unfold we, wd, wc. rewrite Hw1.
    by repeat first [apply Inv_run | apply Inv_step]. }
  assert (Hw3 : w3 = step (OpenAISettled h) wg).
  { unfold w3, wg. by rewrite run_app. }
  destruct (resumed_fallback h text seq wg Hsuspg) as (Hnone & Hnext & Heff3).
  { rewrite Hq4, Hqf, Hq3, Hqd, Hq2. done. }
  rewrite <- Hw3 in Hnone, Hnext, Heff3.
  assert (Heff2 : effects_of h (trace w2) = sent).
  { by rewrite Hef, He3, Hed, He2. }
  split_and!; try done.
  - by rewrite Heff3, He4, Heff2.
  - intros evs5. apply inert_run. split.
    + rewrite Hnext. by eapply inv_handles.
    + by left.
Qed.

End Fallback.

(** C3, as the code has it.  A text that passes the guard of [speak] but
    that the remote sanitisation empties, with a credential configured and
    the token uncontested: the adapter fetches nothing and returns [false],
    and [speak] then does fall back, calling [speakBrowser] exactly once with
    the original text; the engine speaks whatever the local sanitisation
    leaves of it. *)
Theorem unspeakable_text_falls_back
    (w : World) (text : jsstring) (evs1 evs2 evs3 : list Event) :
  Inv w →
  blank (ArgString text) = false →
  openaiApiKey w ≠ [] →
  openai_clean text = [] →
  let h := nextHandle w in
  let seq := js_incr (speakSeq w) in
  Forall (fun e => bystander h e = true) evs1 →
  (250 ≤ elapsed evs1)%nat →
  Forall (fun e => bystander h e = true) evs2 →
  let w1 := run (CallSpeak (ArgString text) :: evs1 ++ [TimerFire h]) w in
  let w2 := run (evs2 ++ [OpenAISettled h]) w1 in
  suspended w1 !! h = Some (AwaitOpenAI text seq (Normal false)) ∧
  effects_of h (trace w1) = [CallOpenAI h text seq] ∧
  effects_of h (trace w2) = CallOpenAI h text seq :: browser_effects h text w2 ∧
  effects_of h (trace (run evs3 w2)) = effects_of h (trace w2).
Proof.
  intros Hw Hblank _ Hclean h seq Hevs1 Hdue Hevs2 w1 w2.
  destruct (silent_adapter_falls_back w text evs1 evs2 Hw Hblank Hevs1 Hdue)
    as (H1 & H2 & H3 & H4); [|done|by split_and!].
  rewrite Hclean. apply orb_true_r.
Qed.

Lemma unspeakable_text_falls_back_witness :
  let w := initial (lit "sk-test") [] true in
  let text := [233%N] in
  let w1 := run (CallSpeak (ArgString text) :: [Elapse 250] ++ [TimerFire 0]) w in
  let w2 := run ([] ++ [OpenAISettled 0]) w1 in
  suspended w1 !! 0%nat = Some (AwaitOpenAI text 1 (Normal false)) ∧
  effects_of 0 (trace w1) = [CallOpenAI 0 text 1] ∧
  effects_of 0 (trace w2) = CallOpenAI 0 text 1 :: browser_effects 0 text w2 ∧
  effects_of 0 (trace (run [CallCancelAll] w2)) = effects_of 0 (trace w2).
Proof.
  intros w text.
  apply (unspeakable_text_falls_back w text [Elapse 250] [] [CallCancelAll]).
  - apply Inv_initial.
  - reflexivity.
  - discriminate.
  - reflexivity.
  - repeat constructor.
  - simpl. lia.
  - constructor.
Defined.

(** C3, as the specification states it, fails: for the one-letter text
    U+00E9, which the remote sanitisation empties, an uncontested [speak]
    with a credential configured calls [speakBrowser] and the engine
    speaks. *)
Lemma unspeakable_text_is_not_silent :
  let w := initial (lit "sk-test") [] true in
  let text := [233%N] in
  let final :=
    run [CallSpeak (ArgString text); Elapse 250; TimerFire 0; OpenAISettled 0] w in
  blank (ArgString text) = false ∧
  openai_clean text = [] ∧
  openaiApiKey w ≠ [] ∧
  effects_of 0 (trace final) =
    [CallOpenAI 0 text 1; CallBrowser 0 text; SynthSpeak 0 text None] ∧
  synthQueue final = [text].
Proof. by vm_compute. Qed.

(** C4.  With no credential, a [speak] that passes its guard and whose
    token is uncontested fetches nothing: the adapter returns [false] in
    the turn in which it is called, and [speakBrowser] is called exactly
    once, with the text as given. *)
Theorem fallback_without_credential
    (w : World) (text : jsstring) (evs1 evs2 evs3 : list Event) :
  Inv w →
  blank (ArgString text) = false →
  openaiApiKey w = [] →
  let h := nextHandle w in
  let seq := js_incr (speakSeq w) in
  Forall (fun e => bystander h e = true) evs1 →
  (250 ≤ elapsed evs1)%nat →
  Forall (fun e => bystander h e = true) evs2 →
  let w1 := run (CallSpeak (ArgString text) :: evs1 ++ [TimerFire h]) w in
  let w2 := run (evs2 ++ [OpenAISettled h]) w1 in
  suspended w1 !! h = Some (AwaitOpenAI text seq (Normal false)) ∧
  effects_of h (trace w1) = [CallOpenAI h text seq] ∧
  effects_of h (trace w2) = CallOpenAI h text seq :: browser_effects h text w2 ∧
  effects_of h (trace (run evs3 w2)) = effects_of h (trace w2).
Proof.
  intros Hw Hblank Hkey h seq Hevs1 Hdue Hevs2 w1 w2.
  destruct (silent_adapter_falls_back w text evs1 evs2 Hw Hblank Hevs1 Hdue)
    as (H1 & H2 & H3 & H4); [|done|by split_and!].
  by rewrite Hkey.
Qed.

Lemma fallback_without_credential_witness :
  let w := initial [] [] true in
  let text := lit "hello" in
  let w1 := run (CallSpeak (ArgString text) :: [Elapse 100; Elapse 150] ++ [TimerFire 0]) w in
  let w2 := run ([UtteranceEnded] ++ [OpenAISettled 0]) w1 in
  suspended w1 !! 0%nat = Some (AwaitOpenAI text 1 (Normal false)) ∧
  effects_of 0 (trace w1) = [CallOpenAI 0 text 1] ∧
  effects_of 0 (trace w2) = CallOpenAI 0 text 1 :: browser_effects 0 text w2 ∧
  effects_of 0 (trace (run [CallSpeak (ArgString text)] w2)) = effects_of 0 (trace w2).
Proof.
  intros w text.
  apply (fallback_without_credential w text [Elapse 100; Elapse 150] [UtteranceEnded]
           [CallSpeak (ArgString text)]).
  - apply Inv_initial.
  - reflexivity.
  - reflexivity.
  - repeat constructor.
  - simpl. lia.
  - repeat constructor.
Defined.

(** C5.  With a credential, a request that comes back with a non-success
    status under the current token: the adapter returns [false] (it never
    throws: the body sits in a [try]), and [speak], resuming uncontested,
    calls [speakBrowser] exactly once with the text as given, not the
    sanitised one; its promise is not rejected. *)
Theorem fallback_on_failed_request
    (w : World) (text : jsstring) (evs1 evs2 evs3 evs4 evs5 : list Event)
    (rj : completion (option jsstring)) :
  Inv w →
  blank (ArgString text) = false →
  openaiApiKey w ≠ [] →
  openai_clean text ≠ [] →
  let h := nextHandle w in
  let seq := js_incr (speakSeq w) in
  Forall (fun e => bystander h e = true) evs1 →
  (250 ≤ elapsed evs1)%nat →
  Forall (fun e => bystander h e = true) evs2 →
  Forall (fun e => bystander h e = true) evs3 →
  Forall (fun e => bystander h e = true) evs4 →
  let w1 := run (CallSpeak (ArgString text) :: evs1 ++ [TimerFire h]) w in
  let w2 := run (evs2 ++ [FetchSettled h (Normal {| ok := false |})] ++
                 evs3 ++ [JsonSettled h rj]) w1 in
  let w3 := run (evs4 ++ [OpenAISettled h]) w2 in
  let sent := [CallOpenAI h text seq;
               Fetch h (openaiApiKey w) (openai_clean text) (openaiVoice w1)] in
  effects_of h (trace w1) = sent ∧
  suspended w2 !! h = Some (AwaitOpenAI text seq (Normal false)) ∧
  effects_of h (trace w2) = sent ∧
  effects_of h (trace w3) = sent ++ browser_effects h text w3 ∧
  effects_of h (trace (run evs5 w3)) = effects_of h (trace w3).
Proof.
  intros Hw Hblank Hkey Hclean h seq Hevs1 Hdue Hevs2 Hevs3 Hevs4 w1 w2 w3 sent.
  destruct (failed_request_falls_back w text evs1 evs2 Hw Hblank Hevs1 Hdue
              evs3 evs4 rj) as (H1 & H2 & H3 & H4 & H5); try done.
  - by destruct (openaiApiKey w).
  - by destruct (openai_clean text).
Qed.

Lemma fallback_on_failed_request_witness :
  let w := initial (lit "sk-test") [] true in
  let text := lit "hello" in
  let w1 := run (CallSpeak (ArgString text) :: [Elapse 250] ++ [TimerFire 0]) w in
  let w2 := run ([Elapse 40] ++ [FetchSettled 0 (Normal {| ok := false |})] ++
                 [] ++ [JsonSettled 0 (Throw (lit "bad json"))]) w1 in
  let w3 := run ([] ++ [OpenAISettled 0]) w2 in
  let sent := [CallOpenAI 0 text 1;
               Fetch 0 (openaiApiKey w) (openai_clean text) (openaiVoice w1)] in
  effects_of 0 (trace w1) = sent ∧
  suspended w2 !! 0%nat = Some (AwaitOpenAI text 1 (Normal false)) ∧
  effects_of 0 (trace w2) = sent ∧
  effects_of 0 (trace w3) = sent ++ browser_effects 0 text w3 ∧
  effects_of 0 (trace (run [CallCancelAll] w3)) = effects_of 0 (trace w3).
Proof.
  intros w text.
  apply (fallback_on_failed_request w text [Elapse 250] [Elapse 40] [] []
           [CallCancelAll] (Throw (lit "bad json"))).
  - apply Inv_initial.
  - reflexivity.
  - discriminate.
  - discriminate.
  - repeat constructor.
  - simpl. lia.
  - repeat constructor.
  - constructor.
  - constructor.
Defined.

(** C6.  [speak] on an empty or whitespace-only string returns at once
    and changes nothing: not the token, not the timer handle or the timer
    itself, not the audio handle, and no backend or host call is made. *)
Theorem speak_blank_is_noop (w : World) (s : jsstring) :
  whitespace_only s →
  let w' := step (CallSpeak (ArgString s)) w in
  speak (ArgString s) w = (Fulfilled, w) ∧
  w' = w ∧
  speakSeq w' = speakSeq w ∧
  pendingSpeakTimer w' = pendingSpeakTimer w ∧
  suspended w' = suspended w ∧
  currentTTSAudio w' = currentTTSAudio w ∧
  trace w' = trace w.
Proof.
  intros Hs%blank_whitespace w'.
  assert (H : speak (ArgString s) w = (Fulfilled, w)) by by apply speak_blank.
  assert (Hw' : w' = w).
  { unfold w'. change (step (CallSpeak (ArgString s)) w)
      with (speak (ArgString s) w).2. by rewrite H. }
  by rewrite Hw'.
Qed.

Lemma speak_blank_is_noop_witness :
  let w := run [CallSpeak (ArgString (lit "hello"))] (initial [] [] true) in
  let s := lit "   " in
  let w' := step (CallSpeak (ArgString s)) w in
  speak (ArgString s) w = (Fulfilled, w) ∧
  w' = w ∧
  speakSeq w' = speakSeq w ∧
  pendingSpeakTimer w' = pendingSpeakTimer w ∧
  suspended w' = suspended w ∧
  currentTTSAudio w' = currentTTSAudio w ∧
  trace w' = trace w.
Proof.
  intros w s. apply (speak_blank_is_noop w s). repeat constructor.
Defined.

(** C7.  Two [cancelAllSpeech()] in a row with no timer pending, no audio
    playing and nothing in the speech engine: the function is total (its
    host calls are guarded or sit in a [try]), both handles are still
    [null], the token has grown by exactly two, and nothing else has
    changed but the record of the two [speechSynthesis.cancel()] calls. *)
Theorem cancelAll_twice_idle (w : World) :
  pendingSpeakTimer w = None →
  currentTTSAudio w = None →
  synthQueue w = [] →
  0 ≤ speakSeq w →
  speakSeq w + 2 ≤ MAX_SAFE_INTEGER + 1 →
  let w2 := run [CallCancelAll; CallCancelAll] w in
  speakSeq w2 = speakSeq w + 2 ∧
  pendingSpeakTimer w2 = None ∧
  currentTTSAudio w2 = None ∧
  w2 = (if hasSpeechSynthesis w
        then emit SynthCancel (emit SynthCancel (set_speakSeq (speakSeq w + 2) w))
        else set_speakSeq (speakSeq w + 2) w).
Proof.
  intros Ht Ha Hq H0 Hmax. simpl. unfold cancelAllSpeech, clearTimeout.
  open_world w. subst. cbn.
  rewrite (js_incr_exact wSeq) by lia.
  destruct wSynth; cbn; rewrite (js_incr_exact (wSeq + 1)) by lia;
    replace (wSeq + 1 + 1) with (wSeq + 2) by lia;
    by rewrite <- ?app_assoc.
Qed.

Lemma cancelAll_twice_idle_witness :
  let w := initial (lit "sk-test") [] true in
  let w2 := run [CallCancelAll; CallCancelAll] w in
  speakSeq w2 = speakSeq w + 2 ∧
  pendingSpeakTimer w2 = None ∧
  currentTTSAudio w2 = None ∧
  w2 = (if hasSpeechSynthesis w
        then emit SynthCancel (emit SynthCancel (set_speakSeq (speakSeq w + 2) w))
        else set_speakSeq (speakSeq w + 2) w).
Proof.
  intros w. apply (cancelAll_twice_idle w).
  - reflexivity.
  - reflexivity.
  - reflexivity.
  - vm_compute. discriminate.
  - vm_compute. discriminate.
Defined.

(** C8.  The token only grows.  Every event that reaches line 144 (a
    [speak] that passes its guard, a [cancelAllSpeech()]) adds exactly one
    while the token is a safe integer; no other event changes it; no event
    lowers it; and a token that has been superseded is never current
    again. *)
Theorem token_strictly_monotonic (w : World) (evs evs' : list Event) :
  (0 ≤ speakSeq w →
   speakSeq w + count_superseding evs ≤ MAX_SAFE_INTEGER + 1 →
   speakSeq (run evs w) = speakSeq w + count_superseding evs) ∧
  (∀ e, supersedes e = true → 0 ≤ speakSeq w ≤ MAX_SAFE_INTEGER →
        speakSeq (step e w) = speakSeq w + 1) ∧
  (∀ e, supersedes e = false → speakSeq (step e w) = speakSeq w) ∧
  (∀ e, speakSeq w ≤ speakSeq (step e w)) ∧
  (speakSeq (run evs w) ≠ speakSeq w →
   speakSeq (run (evs ++ evs') w) ≠ speakSeq w).
Proof.
  split_and!.
  - intros _. apply run_speakSeq_exact.
  - intros e He [_ Hmax]. rewrite step_speakSeq, He. by apply js_incr_exact.
  - intros e He. by rewrite step_speakSeq, He.
  - intros e. apply step_speakSeq_mono.
  - intros Hne. rewrite run_app.
    pose proof (run_speakSeq_mono evs w).
    pose proof (run_speakSeq_mono evs' (run evs w)). lia.
Qed.

Lemma token_strictly_monotonic_witness :
  let w := initial [] [] true in
  let evs := [CallSpeak (ArgString (lit "a")); CallSpeak (ArgString (lit " "));
              Elapse 10; CallCancelAll; CallSpeak ArgNull] in
  speakSeq (run evs w) = speakSeq w + count_superseding evs ∧
  speakSeq (step CallCancelAll w) = speakSeq w + 1 ∧
  speakSeq (step (Elapse 10) w) = speakSeq w ∧
  speakSeq (run (evs ++ [CallCancelAll]) w) ≠ speakSeq w.
Proof.
  intros w evs.
  destruct (token_strictly_monotonic w evs [CallCancelAll]) as (H1 & H2 & H3 & _ & H5).
  split_and!.
  - apply H1; vm_compute; discriminate.
  - apply H2; [reflexivity|]. split; vm_compute; discriminate.
  - apply H3. reflexivity.
  - apply H5. vm_compute. discriminate.
Defined.

(** [select_voice] in the vocabulary of the preference order. *)
Lemma select_voice_eq id voices :
  select_voice id voices =
  if negb (falsy id) then List.find (has_id id) voices
  else or_else (List.find english_remote voices)
         (or_else (List.find is_english voices) (head voices)).
Proof. reflexivity. Qed.

(** The specification's order leaves no choice, and where it applies the
    code follows it. *)
Lemma stated_voice_order_functional id voices r :
  stated_voice_order id voices r → r = select_voice id voices.
Proof.
  rewrite select_voice_eq.
  destruct 1 as [v Hid Hv|v Hid Hv|v Hid Hn Hv|v rest Hid Hn Hv|Hv].
  - destruct id; [done|]. simpl. symmetry. by apply first_such_find.
  - subst. simpl. by rewrite (first_such_find english_remote _ _ Hv).
  - subst. simpl. rewrite (none_such_find english_remote _ Hn). simpl.
    by rewrite (first_such_find _ _ _ Hv).
  - subst. cbn [falsy negb].
    assert (Hr : none_such english_remote (v :: rest)).
    { eapply Forall_impl; [exact Hn|]. intros x Hx. unfold english_remote.
      by rewrite Hx. }
    by rewrite (none_such_find english_remote _ Hr), (none_such_find is_english _ Hn).
  - subst. by destruct id.
Qed.

Lemma chosen_voice_missing_none id voices :
  chosen_voice_missing id voices → select_voice id voices = None.
Proof.
  intros (Hid & _ & Hn). rewrite select_voice_eq.
  destruct id; [done|]. simpl. by apply none_such_find.
Qed.

(** The order of the code leaves no choice either. *)
Lemma effective_voice_order_functional id voices r :
  effective_voice_order id voices r → r = select_voice id voices.
Proof.
  intros [Hs|[Hm ->]].
  - by apply stated_voice_order_functional.
  - symmetry. by apply chosen_voice_missing_none.
Qed.

Lemma select_voice_order id voices :
  effective_voice_order id voices (select_voice id voices).
Proof.
  rewrite select_voice_eq. destruct id as [|c id]; cbn [falsy negb].
  - left. destruct (List.find english_remote voices) as [v|] eqn:Her; simpl.
    { apply svo_english_remote; [done|]. by apply find_first_such. }
    apply find_none_such in Her.
    destruct (List.find is_english voices) as [v|] eqn:Hen; simpl.
    { apply svo_english; [done..|]. by apply find_first_such. }
    apply find_none_such in Hen.
    destruct voices as [|v rest]; simpl.
    + by apply svo_none.
    + by eapply svo_first.
  - destruct (List.find (has_id (c :: id)) voices) as [v|] eqn:Hid.
    + left. apply svo_chosen; [done|]. by apply find_first_such.
    + apply find_none_such in Hid. destruct voices as [|v rest].
      * left. by apply svo_none.
      * right. by split_and!.
Qed.

(** C9, as the code has it.  The voice [speakBrowser] picks follows the
    preference order of the specification (the first voice with the chosen
    identifier when one is set; with none set, the first English voice that
    is not a local service, else the first English voice, else the first
    voice; no voice for an empty list) except where an identifier is set
    and no voice of a non-empty list has it: there, and only there, it
    sets no voice and tries none of the others. *)
Theorem voice_preference_order (id : jsstring) (voices : list Voice) :
  effective_voice_order id voices (select_voice id voices) ∧
  (stated_voice_order id voices (select_voice id voices)
   ↔ ¬ chosen_voice_missing id voices) ∧
  (∀ r, effective_voice_order id voices r ↔ r = select_voice id voices) ∧
  select_voice id [] = None.
Proof.
  split_and!.
  - apply select_voice_order.
  - split.
    + intros Hs Hm. rewrite (chosen_voice_missing_none _ _ Hm) in Hs.
      destruct Hm as (_ & Hne & _). by inversion Hs.
    + intros Hm. by destruct (select_voice_order id voices) as [Hs|[? _]].
  - intros r. split; [apply effective_voice_order_functional|].
    intros ->. apply select_voice_order.
  - unfold select_voice. by destruct id.
Qed.

(** C9, as the specification states it, fails: on a page whose first
    voice list chose the voice [alice] and whose list has since changed to
    the English voice [bob] alone, the words call for the voice with the
    chosen identifier, and name the empty list as the one case without a
    voice; [speakBrowser] speaks with no voice set. *)
Lemma missing_chosen_voice_sets_none :
  let alice := {| voiceURI := lit "alice"; name := lit "Alice";
                  lang := lit "en-US"; localService := false |} in
  let bob := {| voiceURI := lit "bob"; name := lit "Bob";
                lang := lit "en-GB"; localService := false |} in
  let final :=
    run [VoicesChanged [alice]; VoicesChanged [bob];
         CallSpeak (ArgString (lit "hi")); Elapse 250; TimerFire 0;
         OpenAISettled 0] (initial [] [] true) in
  selectedVoiceId final = lit "alice" ∧
  browserVoices final = [bob] ∧
  english_remote bob = true ∧
  select_voice (selectedVoiceId final) (browserVoices final) = None ∧
  effects_of 0 (trace final) =
    [CallOpenAI 0 (lit "hi") 1; CallBrowser 0 (lit "hi");
     SynthSpeak 0 (lit "hi") None] ∧
  ¬ stated_voice_order (selectedVoiceId final) (browserVoices final)
      (select_voice (selectedVoiceId final) (browserVoices final)).
Proof.
  split_and!; try by vm_compute.
  vm_compute. intros Hs. by inversion Hs.
Qed.

(** C10, as the code has it.  [speak(null)] and [speak(undefined)] return at once
    with a fulfilled promise and the world untouched, exactly as
    [speak('')] does, and for a string the promise handed back is never a
    rejected one.  For a value that is neither of these and has no [trim]
    method the guard itself raises: the promise is rejected, and the world
    is untouched. *)
Theorem speak_entry_by_argument (w : World) :
  speak ArgNull w = (Fulfilled, w) ∧
  speak ArgUndefined w = (Fulfilled, w) ∧
  speak ArgNull w = speak (ArgString []) w ∧
  speak ArgUndefined w = speak (ArgString []) w ∧
  step (CallSpeak ArgNull) w = w ∧
  step (CallSpeak ArgUndefined) w = w ∧
  (∀ text, speak_value (ValArg text) w = speak text w) ∧
  (∀ text message, (speak_value (ValArg text) w).1 ≠ Rejected message) ∧
  (∀ v, ∃ message, speak_value (ValOther v) w = (Rejected message, w)).
Proof.
  split_and!; try done.
  - intros [| |s] message; simpl; try done. by destruct (falsy (trim s)).
  - intros v. by eexists.
Qed.

(** C10, as the specification states it, fails: [speak(42)] hands back a
    rejected promise, on a fresh page as anywhere. *)
Lemma speak_number_rejects :
  let w := initial (lit "sk-test") [] true in
  speak_value (ValOther (NumberValue 42)) w
  = (Rejected trim_is_not_a_function, w) ∧
  ¬ (∀ text message, (speak_value text w).1 ≠ Rejected message).
Proof.
  split; [reflexivity|]. intros H.
  by apply (H (ValOther (NumberValue 42)) trim_is_not_a_function).
Qed.

(** * Beyond the statements: the rest of the voice system and its callers *)

(** ** What one event adds to the trace *)

Section NewEffects.

Ltac new_solve :=
  unfold new_effects; cbn;
  rewrite <- ?app_assoc; rewrite ?drop_app_length; rewrite ?drop_all; cbn.

(** The trace only grows. *)
Lemma step_trace e w : trace (step e w) = trace w ++ new_effects e w.
Proof.
  destruct e as [text| | | | | | | | | | | | | |]; simpl.
  1: { destruct text as [| |s]; unfold new_effects; simpl;
         try (by rewrite drop_all, app_nil_r).
       destruct (falsy (trim s)); simpl; [by rewrite drop_all, app_nil_r|].
       unfold cancelAllSpeech, clearTimeout. open_world w.
       split_cases; rewrite <- ?app_assoc; by rewrite drop_app_length. }
  all: unfold new_effects; simpl;
    unfold cancelAllSpeech, clearTimeout, setOAIKey,
      setOAIVoice, loadBrowserVoices, speak_debounced, speak_resumed,
      await_adapter, speakWithOpenAI, speakWithOpenAI_fetched,
      speakWithOpenAI_json, speakWithOpenAI_blob, speakBrowser,
      audio_handler, stale;
    open_world w; split_cases;
    rewrite <- ?app_assoc; rewrite ?drop_app_length, ?drop_all, ?app_nil_r; done.
Qed.

End NewEffects.

Section Allowed.

Ltac elems H :=
  repeat (first [ apply elem_of_nil in H; destruct H
                | apply elem_of_cons in H as [->|H] ]).

Ltac allowed_solve :=
  cbn; split;
  [ try done; split_and?; try done;
    try (by destruct (openai_clean _)); try (by destruct (browser_clean _));
    try (by eexists); try (intros ->; done);
    try (match goal with H : negb ?b = false |- ?b = true => by destruct b end)
  | intros ? [= <-]; split; [done|]; eexists; split; [done|]; cbn; lia ].

(** Every host call made for an activation is made by the activation the
    event resumes, under the current token; requests carry the credential
    and a non-empty text, utterances a non-empty text; nothing is thrown
    to the caller of [speak]. *)
Lemma new_effects_allowed e w eff :
  Inv w →
  eff ∈ new_effects e w →
  allowed_effect w eff ∧
  ∀ h, act_of eff = Some h →
       target e = Some h ∧
       ∃ k, suspended w !! h = Some k ∧ token_of k = speakSeq w.
Proof.
  intros [_ _ _ H4 _] Heff. revert Heff.
  destruct e as [text| | | | | | | | | | | | | |]; unfold new_effects; simpl.
  1: { destruct text as [| |s]; simpl; rewrite ?drop_all;
         try (by intros ?%elem_of_nil).
       destruct (falsy (trim s)); simpl; rewrite ?drop_all;
         [by intros ?%elem_of_nil|].
       unfold cancelAllSpeech, clearTimeout. open_world w.
       split_cases; rewrite <- ?app_assoc; rewrite drop_app_length;
         intros Heff; elems Heff; by split. }
  all: unfold cancelAllSpeech, clearTimeout, setOAIKey,
      setOAIVoice, loadBrowserVoices, speak_debounced, speak_resumed,
      await_adapter, speakWithOpenAI, speakWithOpenAI_fetched,
      speakWithOpenAI_json, speakWithOpenAI_blob, speakBrowser,
      audio_handler, stale;
    open_world w; split_cases;
    rewrite <- ?app_assoc; rewrite ?drop_app_length, ?drop_all;
    intros Heff; elems Heff.
  all: try (by split).
  all: try (match goal with
            | H : _ !! _ = Some (AwaitOpenAI _ _ (Throw _)) |- _ =>
                destruct (H4 _ _ _ _ H) as [? [=]]
            end).
  all: allowed_solve.
Qed.

End Allowed.

(** ** Only the latest activation holds the current token *)

Section Latest.

Ltac fresh_solve :=
  constructor; cbn in *; intros; map_cases; cbn in *;
  repeat match goal with
  | H1 : ∀ h k, ?m !! h = Some k → token_of k ≤ _,
    H : ?m !! ?a = Some ?k |- _ =>
      lazymatch goal with
      | _ : token_of k ≤ _ |- _ => fail
      | _ => pose proof (H1 _ _ H)
      end
  end; cbn in *;
  try lia;
  try (match goal with
       | H2 : ∀ h k, ?m !! h = Some k → token_of k = _ → _,
         H : ?m !! ?a = Some ?k |- _ => by apply (H2 _ _ H)
       end).

Lemma Fresh_initial key voice synth : Fresh (initial key voice synth).
Proof. constructor; cbn; intros; simplify_map_eq. Qed.

Lemma Fresh_step e w :
  Inv w → Fresh w → speakSeq w ≤ MAX_SAFE_INTEGER → Fresh (step e w).
Proof.
  intros [H1 _ _ _ _] [F1 F2] Hsafe.
  destruct e as [text| | | | | | | | | | | | | |]; simpl.
  1: { destruct text as [| |s]; simpl; try (by constructor).
       destruct (falsy (trim s)); simpl; [by constructor|].
       unfold cancelAllSpeech, clearTimeout. open_world w.
       rewrite (js_incr_exact wSeq) by done.
       split_cases; fresh_solve. }
  1: { unfold cancelAllSpeech, clearTimeout. open_world w.
       rewrite (js_incr_exact wSeq) by done.
       split_cases; fresh_solve. }
  all: unfold setOAIKey,
      setOAIVoice, loadBrowserVoices, speak_debounced, speak_resumed,
      await_adapter, speakWithOpenAI, speakWithOpenAI_fetched,
      speakWithOpenAI_json, speakWithOpenAI_blob, speakBrowser,
      audio_handler, stale;
    open_world w; split_cases; try (by constructor); fresh_solve.
Qed.

Lemma step_speakSeq_le e w : speakSeq (step e w) ≤ speakSeq w + 1.
Proof.
  rewrite step_speakSeq. destruct (supersedes e); [|lia].
  unfold js_incr. case_match; lia.
Qed.

Lemma Fresh_run evs w :
  Inv w → Fresh w →
  speakSeq w + Z.of_nat (length evs) ≤ MAX_SAFE_INTEGER + 1 →
  Fresh (run evs w).
Proof.
  revert w. induction evs as [|e evs IH]; intros w Hw Hf Hlen; simpl; [done|].
  simpl in Hlen. pose proof (step_speakSeq_le e w).
  apply IH; [by apply Inv_step|apply Fresh_step; [done..|lia]|lia].
Qed.

Lemma Fresh_reachable key voice synth evs :
  Z.of_nat (length evs) ≤ MAX_SAFE_INTEGER + 1 →
  Fresh (run evs (initial key voice synth)).
Proof.
  intros H. apply Fresh_run; [apply Inv_initial|apply Fresh_initial|done].
Qed.

End Latest.

(** ** Whole sessions *)

Section Sessions.

Lemma run_trace_prefix evs w : ∃ l, trace (run evs w) = trace w ++ l.
Proof.
  revert w. induction evs as [|e evs IH]; intros w; simpl.
  - exists []. by rewrite app_nil_r.
  - destruct (IH (step e w)) as [l Hl]. rewrite Hl, step_trace.
    eexists. by rewrite <- app_assoc.
Qed.

Lemma run_trace evs w : trace (run evs w) = trace w ++ effects_since w (run evs w).
Proof.
  unfold effects_since. destruct (run_trace_prefix evs w) as [l Hl].
  by rewrite Hl, drop_app_length.
Qed.

Lemma effects_since_cons e evs w :
  effects_since w (run (e :: evs) w) =
  new_effects e w ++ effects_since (step e w) (run evs (step e w)).
Proof.
  simpl. unfold effects_since at 1.
  rewrite (run_trace evs (step e w)), step_trace.
  rewrite <- app_assoc. by rewrite drop_app_length.
Qed.

(** What holds of every host call an event makes holds of the trace of a
    session. *)
Lemma reachable_trace (P : Effect → Prop) :
  (∀ w e eff, Inv w → eff ∈ new_effects e w → P eff) →
  ∀ key voice synth evs,
    Forall P (trace (run evs (initial key voice synth))).
Proof.
  intros HP key voice synth evs.
  assert (H : ∀ w, Inv w → Forall P (trace w) → Forall P (trace (run evs w))).
  { induction evs as [|e evs IH]; intros w Hw Ht; simpl; [done|].
    apply IH; [by apply Inv_step|]. rewrite step_trace.
    apply Forall_app. split; [done|]. apply Forall_forall. intros eff Heff.
    by eapply HP. }
  apply H; [apply Inv_initial|constructor].
Qed.

Lemma speakSeq_reachable key voice synth evs :
  Z.of_nat (length evs) ≤ MAX_SAFE_INTEGER + 1 →
  speakSeq (run evs (initial key voice synth)) ≤ Z.of_nat (length evs).
Proof.
  intros H. rewrite token_counts_calls by done. apply count_superseding_le.
Qed.

Ltac use_spent :=
  repeat match goal with
  | Hs : ∀ h, match ?m !! h with _ => _ end, Hl : ?m !! ?a = _ |- _ =>
      let E := fresh "E" in
      pose proof (Hs a) as E; rewrite Hl in E; cbn in E; revert Hl
  end; intros.

(** A spent activation stays spent, whatever arrives. *)
Lemma spent_step e w :
  (∀ h, spent h w) → starts_speech e = false → ∀ h, spent h (step e w).
Proof.
  unfold spent. intros Hs He. pose proof (js_incr_ge (speakSeq w)) as Hge.
  destruct e as [text| | | | | | | | | | | | | |]; simpl.
  1: { simpl in He. rewrite speak_blank; [done|]. by destruct (blank text). }
  all: unfold cancelAllSpeech, clearTimeout, setOAIKey,
      setOAIVoice, loadBrowserVoices, speak_debounced, speak_resumed,
      await_adapter, speakWithOpenAI, speakWithOpenAI_fetched,
      speakWithOpenAI_json, speakWithOpenAI_blob, speakBrowser,
      audio_handler, stale;
    open_world w; intros h0; try (by apply Hs).
  all: split_cases; map_cases; use_spent; cbn in *; simplify_eq;
    try done; try lia;
    repeat (match goal with E : _ ∧ ∃ _, _ |- _ => destruct E as [? [? ?]] end);
    simplify_eq; try (split; [lia|by eexists]).
Qed.

End Sessions.

(** ** Sessions of the voice system *)

Section Silence.

Lemma spent_silent e w eff :
  Inv w → (∀ h, spent h w) → eff ∈ new_effects e w → act_of eff = None.
Proof.
  intros Hw Hs Heff. destruct (act_of eff) as [h|] eqn:Hact; [|done].
  destruct (new_effects_allowed e w eff Hw Heff) as [_ Hcur].
  destruct (Hcur h Hact) as (_ & k & Hk & Htok).
  specialize (Hs h). unfold spent in Hs. rewrite Hk in Hs.
  destruct k; cbn in *; try done; lia.
Qed.

Lemma spent_run evs w :
  Inv w → (∀ h, spent h w) →
  Forall (fun e => starts_speech e = false) evs →
  Forall (fun eff => act_of eff = None) (effects_since w (run evs w)).
Proof.
  intros Hw Hs Hevs. revert w Hw Hs.
  induction Hevs as [|e evs He _ IH]; intros w Hw Hs.
  - unfold effects_since. simpl. by rewrite drop_all.
  - rewrite effects_since_cons. apply Forall_app. split.
    + apply Forall_forall. intros eff Heff. by eapply spent_silent.
    + apply IH; [by apply Inv_step|by apply spent_step].
Qed.

(** Line 144 puts every pending activation behind the token, and lines
    145-148 drop the one timer there can be. *)
Lemma cancel_spends w :
  Inv w → Fresh w → speakSeq w ≤ MAX_SAFE_INTEGER →
  ∀ h, spent h (cancelAllSpeech w).
Proof.
  intros Hw [F1 _] Hsafe h. unfold spent.
  rewrite cancelAllSpeech_suspended, cancelAllSpeech_speakSeq.
  rewrite js_incr_exact by done.
  destruct (suspended w !! h) as [k|] eqn:Hk; [|by case_bool_decide].
  pose proof (F1 h k Hk) as Hle.
  destruct k as [d t q|t q|t q|t q|t q r]; cbn in *.
  - assert (Ht : pendingSpeakTimer w = Some h).
    { apply (inv_timer w Hw). by rewrite Hk. }
    by rewrite bool_decide_eq_true_2.
  - case_bool_decide; cbn; lia.
  - case_bool_decide; cbn; lia.
  - case_bool_decide; cbn; lia.
  - destruct (inv_settled w Hw h t q r Hk) as [b ->].
    case_bool_decide; (split; [lia|by eexists]).
Qed.

End Silence.

(** X1.  In every session there is at most one debounce timer pending,
    and it is the one [pendingSpeakTimer] holds. *)
Theorem one_timer_at_most
    (key voice : jsstring) (synth : bool) (evs : list Event) (h1 h2 : nat) :
  let w := run evs (initial key voice synth) in
  is_timer (suspended w !! h1) →
  is_timer (suspended w !! h2) →
  h1 = h2 ∧ pendingSpeakTimer w = Some h1.
Proof.
  intros w H1 H2. pose proof (Inv_reachable key voice synth evs) as Hw.
  pose proof (inv_timer _ Hw h1 H1) as E1.
  pose proof (inv_timer _ Hw h2 H2) as E2.
  fold w in E1, E2. split; [congruence|done].
Qed.

Lemma one_timer_at_most_witness :
  let w := run [CallSpeak (ArgString (lit "A")); Elapse 10;
                CallSpeak (ArgString (lit "B"))] (initial [] [] true) in
  1%nat = 1%nat ∧ pendingSpeakTimer w = Some 1%nat.
Proof.
  apply (one_timer_at_most [] [] true
           [CallSpeak (ArgString (lit "A")); Elapse 10;
            CallSpeak (ArgString (lit "B"))] 1 1); exact I.
Defined.

(** X2.  Latest wins.  In a session of at most [2^53] events, whenever an
    event makes a host call on behalf of an activation (the adapter is
    entered, a request is sent, audio is played, [speakBrowser] is entered,
    an utterance is spoken), that activation is the one the event resumes,
    it is the one started last, and its token is the current one. *)
Theorem latest_activation_acts
    (key voice : jsstring) (synth : bool) (evs : list Event)
    (e : Event) (eff : Effect) (h : nat) :
  Z.of_nat (length evs) ≤ MAX_SAFE_INTEGER + 1 →
  let w := run evs (initial key voice synth) in
  eff ∈ new_effects e w →
  act_of eff = Some h →
  target e = Some h ∧
  S h = nextHandle w ∧
  ∃ k, suspended w !! h = Some k ∧ token_of k = speakSeq w.
Proof.
  intros Hlen w Heff Hact.
  pose proof (Inv_reachable key voice synth evs) as Hw.
  pose proof (Fresh_reachable key voice synth evs Hlen) as Hf.
  destruct (new_effects_allowed e w eff Hw Heff) as [_ Hcur].
  destruct (Hcur h Hact) as (Ht & k & Hk & Htok).
  split_and!; [done| |by exists k].
  by apply (fresh_latest _ Hf h k).
Qed.

Lemma latest_activation_acts_witness :
  let w := run [CallSpeak (ArgString (lit "A")); Elapse 10;
                CallSpeak (ArgString (lit "B")); Elapse 250]
             (initial (lit "sk-test") [] true) in
  target (TimerFire 1) = Some 1%nat ∧
  2%nat = nextHandle w ∧
  ∃ k, suspended w !! 1%nat = Some k ∧ token_of k = speakSeq w.
Proof.
  intros w.
  apply (latest_activation_acts (lit "sk-test") [] true
           [CallSpeak (ArgString (lit "A")); Elapse 10;
            CallSpeak (ArgString (lit "B")); Elapse 250]
           (TimerFire 1) (CallOpenAI 1 (lit "B") 2) 1).
  - vm_compute. discriminate.
  - vm_compute. apply list_elem_of_here.
  - reflexivity.
Defined.

(** X3.  [cancelAllSpeech()] silences everything pending.  In a session
    of fewer than [2^53] events, from a call of [cancelAllSpeech] until
    the next [speak] that passes its guard no host call is made on behalf
    of any activation, whatever timers fire and whatever responses
    arrive: the adapter is not entered, nothing is fetched, played or
    spoken. *)
Theorem cancel_silences_pending
    (key voice : jsstring) (synth : bool) (evs evs' : list Event) :
  Z.of_nat (length evs) ≤ MAX_SAFE_INTEGER →
  Forall (fun e => starts_speech e = false) evs' →
  let w := run evs (initial key voice synth) in
  Forall (fun eff => act_of eff = None)
    (effects_since w (run (CallCancelAll :: evs') w)).
Proof.
  intros Hlen Hevs w.
  pose proof (Inv_reachable key voice synth evs) as Hw. fold w in Hw.
  assert (Hf : Fresh w) by (apply Fresh_reachable; lia).
  assert (Hsafe : speakSeq w ≤ MAX_SAFE_INTEGER).
  { pose proof (speakSeq_reachable key voice synth evs). fold w in H. lia. }
  rewrite effects_since_cons. apply Forall_app. split.
  - apply Forall_forall. intros eff Heff.
    destruct (act_of eff) as [h|] eqn:Hact; [|done].
    revert Heff Hact. unfold new_effects. simpl.
    destruct (run_trace_prefix [CallCancelAll] w) as [l Hl]. simpl in Hl.
    rewrite Hl, drop_app_length. intros Heff Hact.
    assert (Hin : eff ∈ trace (cancelAllSpeech w)).
    { rewrite Hl. apply elem_of_app. by right. }
    assert (Hnotin : effects_of h (trace (cancelAllSpeech w)) =
                     effects_of h (trace w)) by apply cancelAllSpeech_effects.
    rewrite Hl, effects_of_app in Hnotin.
    assert (Hnil : effects_of h l = []).
    { destruct (effects_of h l); [done|].
      apply (f_equal length) in Hnotin. rewrite length_app in Hnotin.
      simpl in Hnotin. lia. }
    by destruct (effects_of_nil_not_in h l eff Hnil Hact).
  - apply spent_run; [by apply Inv_step| |done].
    by apply (cancel_spends w).
Qed.

Lemma cancel_silences_pending_witness :
  let w := run [CallSpeak (ArgString (lit "A")); Elapse 250; TimerFire 0]
             (initial (lit "sk-test") [] true) in
  Forall (fun eff => act_of eff = None)
    (effects_since w
       (run (CallCancelAll ::
             [FetchSettled 0 (Normal {| ok := true |}); BlobSettled 0 (Normal tt);
              OpenAISettled 0; Elapse 500]) w)).
Proof.
  apply (cancel_silences_pending (lit "sk-test") [] true
           [CallSpeak (ArgString (lit "A")); Elapse 250; TimerFire 0]).
  - vm_compute. discriminate.
  - repeat constructor.
Defined.

(** X4.  Nothing is ever thrown to the caller of [speak]: in every
    session the adapter's promise, once settled, is fulfilled, and the
    promise of [speak] is never rejected, however the network calls end. *)
Theorem speak_never_rejects
    (key voice : jsstring) (synth : bool) (evs : list Event) :
  let w := run evs (initial key voice synth) in
  (∀ h text q r, suspended w !! h = Some (AwaitOpenAI text q r) →
                 ∃ usedAI, r = Normal usedAI) ∧
  (∀ h message, Rejection h message ∉ trace w).
Proof.
  intros w. split.
  - apply inv_settled, Inv_reachable.
  - intros h message Hin.
    pose proof (reachable_trace (fun eff => ∀ h m, eff ≠ Rejection h m)) as H.
    eapply Forall_forall in H; [by eapply H|..|exact Hin].
    intros w' e eff Hw' Heff h' m' ->.
    by destruct (new_effects_allowed e w' _ Hw' Heff) as [[] _].
Qed.

(** ** What sanitising leaves *)

Section Sanitised.

Lemma rev_reverse {A} (l : list A) : rev l = reverse l.
Proof.
  induction l as [|x l IH]; [done|]. simpl. by rewrite IH, reverse_cons.
Qed.

Lemma trimStart_head s c r : trimStart s = c :: r → is_white_space c = false.
Proof.
  induction s as [|x s IH]; simpl; [done|].
  destruct (is_white_space x) eqn:Hx; [done|]. by intros [= <- _].
Qed.

Lemma trimStart_id s :
  (∀ c, head s = Some c → is_white_space c = false) → trimStart s = s.
Proof. destruct s as [|c r]; simpl; [done|]. intros H. by rewrite H. Qed.

(** [trimEnd] cuts a whitespace suffix off. *)
Lemma trimEnd_split s : ∃ ws, s = trimEnd s ++ ws ∧ whitespace_only ws.
Proof.
  unfold trimEnd. destruct (trimStart_split (rev s)) as (ws & Hs & Hws).
  exists (rev ws). split.
  - apply (f_equal (@rev N)) in Hs. rewrite rev_involutive in Hs.
    by rewrite Hs at 1; rewrite rev_app_distr.
  - apply whitespace_only_rev. by rewrite rev_involutive.
Qed.

Lemma trimEnd_last s c : last (trimEnd s) = Some c → is_white_space c = false.
Proof.
  unfold trimEnd. rewrite rev_reverse, last_reverse.
  destruct (trimStart (rev s)) as [|x r] eqn:Hx; simpl; [done|].
  intros [= <-]. by eapply trimStart_head.
Qed.

Lemma trimEnd_id s :
  (∀ c, last s = Some c → is_white_space c = false) → trimEnd s = s.
Proof.
  intros H. unfold trimEnd. rewrite trimStart_id; [apply rev_involutive|].
  intros c Hc. apply H. by rewrite <- head_reverse, <- rev_reverse.
Qed.

(** [trim] keeps a contiguous part of the string. *)
Lemma trim_split s : ∃ a b, s = a ++ trim s ++ b.
Proof.
  unfold trim. destruct (trimStart_split s) as (a & Hs & _).
  destruct (trimEnd_split (trimStart s)) as (b & Ht & _).
  exists a, b. by rewrite <- Ht.
Qed.

Lemma trim_Forall (P : N → Prop) s : Forall P s → Forall P (trim s).
Proof.
  destruct (trim_split s) as (a & b & Hs). rewrite Hs at 1.
  intros (_ & (H & _)%Forall_app)%Forall_app. done.
Qed.

Lemma trim_head s c : head (trim s) = Some c → is_white_space c = false.
Proof.
  unfold trim. destruct (trimStart s) as [|x r] eqn:Hx; [done|].
  pose proof (trimStart_head _ _ _ Hx) as Hws.
  destruct (trimEnd_split (x :: r)) as (ws & Hs & Hw).
  destruct (trimEnd (x :: r)) as [|y t]; [done|].
  simpl in *. intros [= <-]. by injection Hs as <- _.
Qed.

Lemma trim_last s c : last (trim s) = Some c → is_white_space c = false.
Proof. apply trimEnd_last. Qed.

Lemma trim_idempotent s : trim (trim s) = trim s.
Proof.
  unfold trim at 1. rewrite trimStart_id by apply trim_head.
  apply trimEnd_id, trim_last.
Qed.

Lemma strip_class_Forall cls s :
  Forall (fun c => mem c cls = false) (strip_class cls s).
Proof.
  apply Forall_forall. intros c Hc. apply list_elem_of_In in Hc.
  apply List.filter_In in Hc as [_ Hc]. by destruct (mem c cls).
Qed.

Lemma replace_newline_Forall (P : N → Prop) by_ s :
  Forall P by_ → Forall (fun c => c ≠ 10%N → P c) s →
  Forall P (replace_newline by_ s).
Proof.
  intros Hby. unfold replace_newline. induction 1 as [|c r Hc _ IH]; simpl.
  - constructor.
  - apply Forall_app. split; [|done].
    destruct (N.eqb_spec c 10); [done|]. constructor; [by apply Hc|constructor].
Qed.

Lemma strip_non_ascii_Forall (P : N → Prop) s :
  Forall P s → Forall P (strip_non_ascii s).
Proof.
  rewrite !Forall_forall. intros H c Hc. apply H.
  apply list_elem_of_In in Hc. apply List.filter_In in Hc as [Hc _].
  by apply list_elem_of_In.
Qed.

Lemma strip_non_ascii_ascii s : Forall (fun c => (c ≤ 127)%N) (strip_non_ascii s).
Proof.
  apply Forall_forall. intros c Hc. apply list_elem_of_In in Hc.
  apply List.filter_In in Hc as [_ Hc]. by apply N.leb_le.
Qed.

(** The [input] of a request: ASCII, at most 1000 code units, no line
    feed, no leading whitespace. *)
Lemma openai_clean_shape text :
  (length (openai_clean text) ≤ 1000)%nat ∧
  Forall (fun c => (c ≤ 127)%N ∧ c ≠ 10%N) (openai_clean text) ∧
  (∀ c, head (openai_clean text) = Some c → is_white_space c = false).
Proof.
  unfold openai_clean, slice0. split_and!.
  - apply firstn_le_length.
  - apply Forall_take, trim_Forall, Forall_and. split.
    + apply strip_non_ascii_ascii.
    + apply strip_non_ascii_Forall, replace_newline_Forall.
      * by repeat constructor.
      * apply Forall_forall. by intros.
  - intros c Hc. apply (trim_head (strip_non_ascii
      (replace_newline (lit ". ")
         (strip_double_star (strip_class openai_emoji_class text))))).
    by destruct (trim _).
Qed.

(** An utterance: no [*], no [#], no line feed, no whitespace at either
    end. *)
Lemma browser_clean_shape text :
  Forall (fun c => c ≠ 42%N ∧ c ≠ 35%N ∧ c ≠ 10%N) (browser_clean text) ∧
  (∀ c, head (browser_clean text) = Some c → is_white_space c = false) ∧
  (∀ c, last (browser_clean text) = Some c → is_white_space c = false).
Proof.
  unfold browser_clean. split_and!.
  - apply trim_Forall, replace_newline_Forall.
    + by repeat constructor.
    + eapply Forall_impl; [apply strip_class_Forall|].
      intros c Hc Hne. cbn in Hc. split_and!; [| |done]; intros ->; done.
  - apply trim_head.
  - apply trim_last.
Qed.

End Sanitised.

(** X5.  Every request the adapter sends, in any session, carries a
    non-empty credential and a non-empty [input] of at most 1000 code
    units, all ASCII, without line feeds and without leading whitespace. *)
Theorem requests_are_well_formed
    (key voice : jsstring) (synth : bool) (evs : list Event)
    (h : nat) (k input v : jsstring) :
  Fetch h k input v ∈ trace (run evs (initial key voice synth)) →
  k ≠ [] ∧
  input ≠ [] ∧
  (length input ≤ 1000)%nat ∧
  Forall (fun c => (c ≤ 127)%N ∧ c ≠ 10%N) input ∧
  (∀ c, head input = Some c → is_white_space c = false).
Proof.
  intros Hin.
  pose proof (reachable_trace
    (fun eff => ∀ h k input v, eff = Fetch h k input v →
       k ≠ [] ∧ input ≠ [] ∧ ∃ text, input = openai_clean text)) as H.
  eapply Forall_forall in H; [|..|exact Hin].
  - destruct (H h k input v eq_refl) as (Hk & Hi & text & ->).
    destruct (openai_clean_shape text) as (H1 & H2 & H3). by split_and!.
  - intros w e eff Hw Heff h' k' i' v' ->.
    destruct (new_effects_allowed e w _ Hw Heff) as [(_ & ? & ? & ?) _].
    by split_and!.
Qed.

Lemma requests_are_well_formed_witness :
  lit "sk-test" ≠ [] ∧
  lit "Go. now" ≠ [] ∧
  (length (lit "Go. now") ≤ 1000)%nat ∧
  Forall (fun c => (c ≤ 127)%N ∧ c ≠ 10%N) (lit "Go. now") ∧
  (∀ c, head (lit "Go. now") = Some c → is_white_space c = false).
Proof.
  apply (requests_are_well_formed (lit "sk-test") [] true
           [CallSpeak (ArgString (lit "**Go**" ++ [10%N] ++ lit "now"));
            Elapse 250; TimerFire 0] 0 _ _ (lit "nova")).
  vm_compute. apply list_elem_of_further, list_elem_of_further,
    list_elem_of_further, list_elem_of_here.
Defined.

Section Engine.

Lemma step_hasSpeechSynthesis e w :
  hasSpeechSynthesis (step e w) = hasSpeechSynthesis w.
Proof.
  destruct e as [text| | | | | | | | | | | | | |]; simpl; try done.
  1: { destruct text as [| |s]; simpl; try done.
       destruct (falsy (trim s)); simpl; [done|].
       by destruct (cancelAllSpeech_frame w) as (_ & _ & _ & _ & _ & _ & _ & ->). }
  1: by destruct (cancelAllSpeech_frame w) as (_ & _ & _ & _ & _ & _ & _ & ->).
  all: unfold loadBrowserVoices, speak_debounced, speak_resumed,
      await_adapter, speakWithOpenAI, speakWithOpenAI_fetched,
      speakWithOpenAI_json, speakWithOpenAI_blob, speakBrowser,
      audio_handler, stale;
    open_world w; by split_cases.
Qed.

Lemma run_hasSpeechSynthesis evs w :
  hasSpeechSynthesis (run evs w) = hasSpeechSynthesis w.
Proof.
  revert w. induction evs as [|e evs IH]; intros w; simpl; [done|].
  by rewrite IH, step_hasSpeechSynthesis.
Qed.

(** As [reachable_trace], knowing whether the host has an engine. *)
Lemma reachable_trace_engine (P : Effect → Prop) key voice synth :
  (∀ w e eff, Inv w → hasSpeechSynthesis w = synth →
              eff ∈ new_effects e w → P eff) →
  ∀ evs, Forall P (trace (run evs (initial key voice synth))).
Proof.
  intros HP evs.
  assert (H : ∀ w, Inv w → hasSpeechSynthesis w = synth →
                   Forall P (trace w) → Forall P (trace (run evs w))).
  { induction evs as [|e evs IH]; intros w Hw Hs Ht; simpl; [done|].
    apply IH; [by apply Inv_step|by rewrite step_hasSpeechSynthesis|].
    rewrite step_trace.
    apply Forall_app. split; [done|]. apply Forall_forall. intros eff Heff.
    by eapply HP. }
  apply H; [apply Inv_initial|done|constructor].
Qed.

End Engine.

(** X6.  Every utterance handed to the speech engine, in any session, is
    non-empty, has no [*], [#] or line feed in it and no whitespace at
    either end; and an engine exists. *)
Theorem utterances_are_clean
    (key voice : jsstring) (synth : bool) (evs : list Event)
    (h : nat) (clean : jsstring) (v : option Voice) :
  SynthSpeak h clean v ∈ trace (run evs (initial key voice synth)) →
  synth = true ∧
  clean ≠ [] ∧
  Forall (fun c => c ≠ 42%N ∧ c ≠ 35%N ∧ c ≠ 10%N) clean ∧
  (∀ c, head clean = Some c → is_white_space c = false) ∧
  (∀ c, last clean = Some c → is_white_space c = false).
Proof.
  intros Hin.
  pose proof (reachable_trace_engine
    (fun eff => ∀ h clean v, eff = SynthSpeak h clean v →
       synth = true ∧ clean ≠ [] ∧ ∃ text, clean = browser_clean text)
    key voice synth) as H.
  eapply Forall_forall in H; [|..|exact Hin].
  - destruct (H h clean v eq_refl) as (Hs & Hc & text & ->).
    destruct (browser_clean_shape text) as (H1 & H2 & H3). by split_and!.
  - intros w e eff Hw Hs Heff h' c' v' ->.
    destruct (new_effects_allowed e w _ Hw Heff) as [(? & ? & _ & ?) _].
    split_and!; [congruence|done..].
Qed.

Lemma utterances_are_clean_witness :
  true = true ∧
  lit "Go now" ≠ [] ∧
  Forall (fun c => c ≠ 42%N ∧ c ≠ 35%N ∧ c ≠ 10%N) (lit "Go now") ∧
  (∀ c, head (lit "Go now") = Some c → is_white_space c = false) ∧
  (∀ c, last (lit "Go now") = Some c → is_white_space c = false).
Proof.
  apply (utterances_are_clean [] [] true
           [CallSpeak (ArgString (lit " **Go**" ++ [10%N] ++ lit "now "));
            Elapse 250; TimerFire 0; OpenAISettled 0] 0 _ None).
  vm_compute. apply list_elem_of_further, list_elem_of_further,
    list_elem_of_further, list_elem_of_further, list_elem_of_further,
    list_elem_of_here.
Defined.

(** X7.  The speech engine never holds more than one utterance: in any
    session its queue has length at most one. *)
Theorem engine_queue_at_most_one
    (key voice : jsstring) (synth : bool) (evs : list Event) :
  (length (synthQueue (run evs (initial key voice synth))) ≤ 1)%nat.
Proof.
  assert (H : ∀ w, (length (synthQueue w) ≤ 1)%nat →
                   (length (synthQueue (run evs w)) ≤ 1)%nat).
  { induction evs as [|e evs IH]; intros w Hq; simpl; [done|].
    apply IH. clear IH.
    destruct e as [text| | | | | | | | | | | | | |]; simpl; try done.
    1: { destruct text as [| |s]; simpl; try done.
         destruct (falsy (trim s)); simpl; [done|].
         unfold cancelAllSpeech, clearTimeout. open_world w.
         split_cases; lia. }
    all: unfold cancelAllSpeech, clearTimeout, loadBrowserVoices,
        speak_debounced, speak_resumed,
        await_adapter, speakWithOpenAI, speakWithOpenAI_fetched,
        speakWithOpenAI_json, speakWithOpenAI_blob, speakBrowser,
        audio_handler, stale;
      open_world w; split_cases; try lia.
    destruct wQueue as [|? [|]]; simpl in *; lia. }
  apply H. simpl. lia.
Qed.

(** ** Settings *)

Section Settings.

Lemma step_openaiApiKey e w :
  sets_key e = false → openaiApiKey (step e w) = openaiApiKey w.
Proof.
  destruct e as [text| | | | | | | | | | | | | |]; simpl; try done; intros _.
  1: { destruct text as [| |s]; simpl; try done.
       destruct (falsy (trim s)); simpl; [done|].
       by destruct (cancelAllSpeech_frame w) as (_ & _ & _ & -> & _). }
  1: by destruct (cancelAllSpeech_frame w) as (_ & _ & _ & -> & _).
  all: unfold loadBrowserVoices, speak_debounced, speak_resumed,
      await_adapter, speakWithOpenAI, speakWithOpenAI_fetched,
      speakWithOpenAI_json, speakWithOpenAI_blob, speakBrowser,
      audio_handler, stale;
    open_world w; by split_cases.
Qed.

(** Line 46: without a credential nothing is fetched. *)
Lemma no_key_no_fetch evs w :
  Inv w → openaiApiKey w = [] →
  Forall (fun e => sets_key e = false) evs →
  Forall (fun eff => is_fetch eff = false) (effects_since w (run evs w)).
Proof.
  intros Hw Hk Hevs. revert w Hw Hk.
  induction Hevs as [|e evs He _ IH]; intros w Hw Hk.
  - unfold effects_since. simpl. by rewrite drop_all.
  - rewrite effects_since_cons. apply Forall_app. split.
    + apply Forall_forall. intros eff Heff.
      destruct (new_effects_allowed e w eff Hw Heff) as [Hall _].
      destruct eff; try done. destruct Hall as (-> & Hne & _). congruence.
    + apply IH; [by apply Inv_step|by rewrite step_openaiApiKey].
Qed.

Lemma step_selectedVoiceId e w :
  selectedVoiceId w ≠ [] → selectedVoiceId (step e w) = selectedVoiceId w.
Proof.
  intros Hid.
  destruct e as [text| | | | | | | | | | | | | |]; simpl; try done.
  1: { destruct text as [| |s]; simpl; try done.
       destruct (falsy (trim s)); simpl; [done|].
       by destruct (cancelAllSpeech_frame w) as (_ & _ & _ & _ & _ & _ & -> & _). }
  1: by destruct (cancelAllSpeech_frame w) as (_ & _ & _ & _ & _ & _ & -> & _).
  all: unfold loadBrowserVoices, speak_debounced, speak_resumed,
      await_adapter, speakWithOpenAI, speakWithOpenAI_fetched,
      speakWithOpenAI_json, speakWithOpenAI_blob, speakBrowser,
      audio_handler, stale;
    open_world w; split_cases; try done;
    match goal with H : falsy ?x = true |- _ => by destruct x end.
Qed.

Lemma NoDup_voiceURI (voices : list Voice) (u v : Voice) :
  NoDup (List.map voiceURI voices) →
  In u voices → In v voices → voiceURI u = voiceURI v → u = v.
Proof.
  induction voices as [|x l IH]; simpl; [done|].
  intros [Hx Hl]%NoDup_cons [->|Hu] [->|Hv] Huv; try done.
  - destruct Hx. rewrite Huv. apply list_elem_of_In. by apply in_map.
  - destruct Hx. rewrite <- Huv. apply list_elem_of_In. by apply in_map.
  - by apply IH.
Qed.

End Settings.

(** X8.  [setOAIKey] stores the key trimmed: what it stores has no
    whitespace at either end, storing it again changes nothing, and a
    whitespace-only key is stored as the empty string, which switches the
    remote backend off: from then until a key is set again, no request is
    sent, whatever is spoken. *)
Theorem credential_is_trimmed (w : World) (k : jsstring) (evs : list Event) :
  let w' := step (CallSetOAIKey k) w in
  (∀ c, head (openaiApiKey w') = Some c → is_white_space c = false) ∧
  (∀ c, last (openaiApiKey w') = Some c → is_white_space c = false) ∧
  step (CallSetOAIKey (openaiApiKey w')) w' = w' ∧
  (openaiApiKey w' = [] ↔ whitespace_only k) ∧
  (Inv w → whitespace_only k →
   Forall (fun e => sets_key e = false) evs →
   Forall (fun eff => is_fetch eff = false) (effects_since w' (run evs w'))).
Proof.
  intros w'. split_and!.
  - apply trim_head.
  - apply trim_last.
  - unfold w'. simpl. unfold setOAIKey. open_world w. by rewrite trim_idempotent.
  - simpl. split; [apply trim_nil|apply trim_whitespace].
  - intros Hw Hk Hevs. apply no_key_no_fetch; [by apply Inv_step| |done].
    simpl. by apply trim_whitespace.
Qed.

Lemma credential_is_trimmed_witness :
  let w := initial (lit "sk-test") [] true in
  let w' := step (CallSetOAIKey (lit "  ")) w in
  Forall (fun eff => is_fetch eff = false)
    (effects_since w'
       (run [CallSpeak (ArgString (lit "hello")); Elapse 250; TimerFire 0;
             OpenAISettled 0] w')).
Proof.
  intros w w'.
  apply (credential_is_trimmed w (lit "  ")
           [CallSpeak (ArgString (lit "hello")); Elapse 250; TimerFire 0;
            OpenAISettled 0]).
  - apply Inv_initial.
  - repeat constructor.
  - repeat constructor.
Defined.

(** X9.  The chosen local voice is sticky.  Once [selectedVoiceId] is
    set, no event changes it: [loadBrowserVoices] writes it only while it
    is empty.  So when the voice list changes to one without that
    identifier, [speakBrowser] sets no voice on its utterances, even if
    English voices are there. *)
Theorem chosen_voice_is_sticky
    (w : World) (evs : list Event) (voices : list Voice) :
  selectedVoiceId w ≠ [] →
  selectedVoiceId (run evs w) = selectedVoiceId w ∧
  (hasSpeechSynthesis w = true →
   none_such (has_id (selectedVoiceId w)) voices →
   let w' := run (evs ++ [VoicesChanged voices]) w in
   browserVoices w' = voices ∧
   select_voice (selectedVoiceId w') (browserVoices w') = None).
Proof.
  intros Hid.
  assert (Hrun : ∀ evs w, selectedVoiceId w ≠ [] →
                          selectedVoiceId (run evs w) = selectedVoiceId w).
  { clear. intros evs. induction evs as [|e evs IH]; intros w Hid; simpl; [done|].
    rewrite IH; rewrite step_selectedVoiceId; done. }
  split; [by apply Hrun|].
  intros Hs Hnone w'.
  assert (Hid' : selectedVoiceId w' = selectedVoiceId w) by by apply Hrun.
  assert (Hv : browserVoices w' = voices).
  { unfold w'. rewrite run_app. simpl. unfold loadBrowserVoices.
    rewrite run_hasSpeechSynthesis, Hs. simpl.
    destruct (List.find is_preferred voices); [|done].
    by destruct (falsy _). }
  split; [done|].
  rewrite Hv, Hid', select_voice_eq.
  destruct (selectedVoiceId w); [done|]. simpl. by apply none_such_find.
Qed.

Lemma chosen_voice_is_sticky_witness :
  let alice := {| voiceURI := lit "alice"; name := lit "Alice"; lang := lit "en-US";
                  localService := false |} in
  let bob := {| voiceURI := lit "bob"; name := lit "Bob"; lang := lit "en-GB";
                localService := false |} in
  let w := step (VoicesChanged [alice]) (initial [] [] true) in
  let w' := run ([CallCancelAll] ++ [VoicesChanged [bob]]) w in
  selectedVoiceId w = lit "alice" ∧
  selectedVoiceId (run [CallCancelAll] w) = selectedVoiceId w ∧
  browserVoices w' = [bob] ∧
  select_voice (selectedVoiceId w') (browserVoices w') = None.
Proof.
  intros alice bob w w'.
  destruct (chosen_voice_is_sticky w [CallCancelAll] [bob]) as [H1 H2];
    [discriminate|].
  split; [reflexivity|]. split; [exact H1|].
  apply H2; [reflexivity|]. repeat constructor.
Defined.

(** X10.  On a page that has chosen no voice yet, and whose voices have
    distinct URIs, the first voice list that arrives fixes the choice: the
    list is stored, [selectedVoiceId] becomes the URI of the first
    preferred voice if there is one, and whenever an English voice is
    installed the voice [speakBrowser] will use is one of
    [getVoiceOptions()]. *)
Theorem first_voices_prefer_english (w : World) (voices : list Voice) :
  hasSpeechSynthesis w = true →
  selectedVoiceId w = [] →
  NoDup (List.map voiceURI voices) →
  let w' := step (VoicesChanged voices) w in
  browserVoices w' = voices ∧
  selectedVoiceId w' =
    match List.find is_preferred voices with
    | Some v => voiceURI v
    | None => []
    end ∧
  (getVoiceOptions w' ≠ [] →
   ∃ v, select_voice (selectedVoiceId w') (browserVoices w') = Some v ∧
        v ∈ getVoiceOptions w').
Proof.
  intros Hs Hid Hnd w'.
  assert (Hv : browserVoices w' = voices).
  { unfold w'. simpl. unfold loadBrowserVoices. rewrite Hs. simpl.
    destruct (List.find is_preferred voices); [|done]. by destruct (falsy _). }
  assert (Hsel : selectedVoiceId w' =
            match List.find is_preferred voices with
            | Some v => voiceURI v | None => [] end).
  { unfold w'. simpl. unfold loadBrowserVoices. rewrite Hs. simpl.
    destruct (List.find is_preferred voices) as [p|]; [|done].
    rewrite Hid. done. }
  split_and!; [done..|].
  unfold getVoiceOptions. rewrite Hv, Hsel. intros Hopt.
  assert (Hen : ∃ v, List.find is_english voices = Some v).
  { destruct (List.find is_english voices) as [v|] eqn:Hf; [by eexists|].
    destruct Hopt. clear -Hf. induction voices as [|x l IH]; simpl in *; [done|].
    destruct (is_english x); [done|]. by apply IH. }
  assert (Hmem : ∀ v, In v voices → is_english v = true →
                      v ∈ List.filter is_english voices).
  { intros v Hin He. apply list_elem_of_In, List.filter_In. by split. }
  rewrite select_voice_eq.
  destruct (List.find is_preferred voices) as [p|] eqn:Hp.
  - apply List.find_some in Hp as [Hpin Hpp].
    assert (Hpe : is_english p = true).
    { unfold is_preferred in Hpp. by apply andb_prop in Hpp as [? _]. }
    destruct (voiceURI p) as [|c u] eqn:Hu; simpl.
    + destruct Hen as [v Hv'].
      destruct (List.find english_remote voices) as [r|] eqn:Hr; simpl.
      * exists r. split; [done|]. apply List.find_some in Hr as [? Hr].
        apply Hmem; [done|]. unfold english_remote in Hr.
        by apply andb_prop in Hr as [? _].
      * rewrite Hv'. simpl. exists v. split; [done|].
        apply List.find_some in Hv' as [? ?]. by apply Hmem.
    + destruct (List.find (has_id (c :: u)) voices) as [v|] eqn:Hf.
      * exists v. split; [done|]. apply List.find_some in Hf as [Hvin Hvid].
        unfold has_id, Js.eqb in Hvid. apply bool_decide_eq_true in Hvid.
        assert (v = p) as ->.
        { apply (NoDup_voiceURI voices); [done..|]. by rewrite Hu. }
        by apply Hmem.
      * eapply List.find_none in Hf; [|exact Hpin].
        unfold has_id, Js.eqb in Hf. rewrite Hu in Hf.
        by rewrite bool_decide_eq_true_2 in Hf.
  - simpl. destruct Hen as [v Hv'].
    destruct (List.find english_remote voices) as [r|] eqn:Hr; simpl.
    + exists r. split; [done|]. apply List.find_some in Hr as [? Hr].
      apply Hmem; [done|]. unfold english_remote in Hr.
      by apply andb_prop in Hr as [? _].
    + rewrite Hv'. simpl. exists v. split; [done|].
      apply List.find_some in Hv' as [? ?]. by apply Hmem.
Qed.

Lemma first_voices_prefer_english_witness :
  let anna := {| voiceURI := lit "anna"; name := lit "Anna"; lang := lit "de-DE";
                 localService := true |} in
  let karen := {| voiceURI := lit "karen"; name := lit "Karen"; lang := lit "en-AU";
                  localService := true |} in
  let w := initial [] [] true in
  let w' := step (VoicesChanged [anna; karen]) w in
  browserVoices w' = [anna; karen] ∧
  selectedVoiceId w' = lit "karen" ∧
  ∃ v, select_voice (selectedVoiceId w') (browserVoices w') = Some v ∧
       v ∈ getVoiceOptions w'.
Proof.
  intros anna karen w w'.
  destruct (first_voices_prefer_english w [anna; karen]) as (H1 & H2 & H3).
  - reflexivity.
  - reflexivity.
  - apply NoDup_cons. split; [|apply NoDup_cons; split; [|apply NoDup_nil; exact I]].
    + vm_compute. intros H. apply list_elem_of_singleton in H. discriminate.
    + apply not_elem_of_nil.
  - split; [exact H1|]. split; [exact H2|]. apply H3. discriminate.
Defined.

(** ** Numbers as text *)

Section Decimal.

Lemma uint_digits_inj d d' : uint_digits d = uint_digits d' → d = d'.
Proof.
  revert d'; induction d; intros [] Heq; simpl in Heq; try discriminate Heq;
    try reflexivity; f_equal; apply IHd; congruence.
Qed.

Lemma toString_inj n n' : toString n = toString n' → n = n'.
Proof.
  intros Heq. by apply DecimalN.Unsigned.to_uint_inj, uint_digits_inj.
Qed.

Lemma uint_digits_Forall d : Forall (λ c, is_digit c = true) (uint_digits d).
Proof. induction d; simpl; constructor; auto. Qed.

Lemma read_digits_acc d acc rest :
  read_digits (N.pos acc) (uint_digits d ++ rest)
  = read_digits (N.pos (Pos.of_uint_acc d acc)) rest.
Proof.
  revert acc; induction d; intros acc; simpl; try reflexivity;
    rewrite <- IHd; f_equal; lia.
Qed.

Lemma read_digits_uint d rest :
  read_digits 0%N (uint_digits d ++ rest) = read_digits (Pos.of_uint d) rest.
Proof.
  induction d; simpl; try reflexivity; try apply IHd;
    rewrite <- read_digits_acc; f_equal.
Qed.

Lemma read_digits_toString n rest :
  read_digits 0%N (toString n ++ rest) = read_digits n rest.
Proof.
  unfold toString. rewrite read_digits_uint.
  change (Pos.of_uint (N.to_uint n)) with (N.of_uint (N.to_uint n)).
  by rewrite DecimalN.Unsigned.of_to.
Qed.

Lemma read_digits_padStart2 n rest :
  read_digits 0%N (padStart2 (toString n) ++ rest) = read_digits n rest.
Proof.
  unfold padStart2. rewrite <- app_assoc.
  induction (2 - length (toString n))%nat; simpl; auto using read_digits_toString.
Qed.

Lemma padStart2_length_ge s : (2 ≤ length (padStart2 s))%nat.
Proof. unfold padStart2. rewrite length_app, repeat_length. lia. Qed.

Lemma padStart2_length n : (n < 100)%N → length (padStart2 (toString n)) = 2%nat.
Proof.
  intros Hn. rewrite <- (N2Nat.id n).
  assert (Hk : (N.to_nat n < 100)%nat) by lia.
  generalize dependent (N.to_nat n). clear. intros k Hk.
  do 100 (destruct k as [|k]; [reflexivity|]). lia.
Qed.

Lemma padStart2_wide s : (2 ≤ length s)%nat → padStart2 s = s.
Proof.
  intros Hs. unfold padStart2. by replace (2 - length s)%nat with 0%nat by lia.
Qed.

Lemma toString_nonempty n : toString n ≠ [].
Proof.
  unfold toString. destruct n as [|p]; [done|].
  simpl. pose proof (Unsigned.to_uint_nonnil p) as Hp.
  destruct (Pos.to_uint p); simpl; congruence.
Qed.

(** On digits alone [parseInt] reads the decimal value, and only the
    empty string is not a number. *)
Lemma is_digit_range c : is_digit c = true → (48 ≤ c ≤ 57)%N.
Proof.
  unfold is_digit. intros [H1%N.leb_le H2%N.leb_le]%andb_true_iff. lia.
Qed.

Lemma parse_magnitude_digits s :
  Forall (λ c, is_digit c = true) s → s ≠ [] →
  parse_magnitude s = Some (read_digits 0%N s).
Proof.
  intros Hs Hne. destruct s as [|c r]; [done|].
  assert (Hd : parse_decimal (c :: r) = Some (read_digits 0%N (c :: r))).
  { apply Forall_cons in Hs as [Hc _]. unfold parse_decimal. by rewrite Hc. }
  destruct r as [|x r]; [done|].
  apply Forall_cons in Hs as [_ [Hx%is_digit_range _]%Forall_cons].
  unfold parse_magnitude.
  replace ((x =? 120) || (x =? 88))%N with false.
  - by rewrite andb_false_r.
  - symmetry. apply orb_false_iff; split; apply N.eqb_neq; lia.
Qed.

Lemma trimStart_digits s :
  Forall (λ c, is_digit c = true) s → trimStart s = s.
Proof.
  intros Hs. destruct s as [|c r]; [done|].
  apply Forall_cons in Hs as [Hc%is_digit_range _].
  simpl. replace (is_white_space c) with false; [done|].
  symmetry. unfold is_white_space, mem. simpl.
  repeat first [ reflexivity | apply N.eqb_neq; lia
               | apply andb_false_iff; left; apply N.leb_gt; lia
               | apply orb_false_iff; split ].
Qed.

Lemma parseInt_digits s :
  Forall (λ c, is_digit c = true) s →
  parseInt s = if falsy s then None else Some (Z.of_N (read_digits 0%N s)).
Proof.
  intros Hs. unfold parseInt. rewrite (trimStart_digits _ Hs).
  destruct s as [|c r]; [done|]. simpl falsy. cbv iota.
  rewrite (parse_magnitude_digits _ Hs) by done.
  apply Forall_cons in Hs as [Hc%is_digit_range _].
  replace (c =? 45)%N with false by (symmetry; apply N.eqb_neq; lia).
  by replace (c =? 43)%N with false by (symmetry; apply N.eqb_neq; lia).
Qed.

Lemma handleNumberInput_digits value :
  Forall (λ c, is_digit c = true) (handleNumberInput value).
Proof.
  unfold handleNumberInput. apply List.Forall_forall. intros c Hc.
  by apply List.filter_In in Hc as [_ Hc].
Qed.

End Decimal.

(** ** The timer display *)

Section Display.

Lemma formatTime_parts t :
  let H := padStart2 (toString (t / 3600)%N) in
  let M := padStart2 (toString ((t mod 3600) / 60)%N) in
  let S := padStart2 (toString (t mod 60)%N) in
  formatTime t = H ++ lit ":" ++ M ++ lit ":" ++ S
  ∧ (2 ≤ length H)%nat ∧ length M = 2%nat ∧ length S = 2%nat.
Proof.
  split_and!; [done|apply padStart2_length_ge|..]; apply padStart2_length.
  - assert ((t mod 3600) / 60 < 60)%N; [|lia].
    apply N.Div0.div_lt_upper_bound. pose proof (N.mod_upper_bound t 3600). lia.
  - pose proof (N.mod_upper_bound t 60). lia.
Qed.

Lemma split_seconds t :
  (3600 * (t / 3600) + 60 * ((t mod 3600) / 60) + t mod 60 = t)%N.
Proof.
  pose proof (N.div_mod t 3600 ltac:(lia)) as H1.
  pose proof (N.div_mod (t mod 3600) 60 ltac:(lia)) as H2.
  assert (H3 : ((t mod 3600) mod 60 = t mod 60)%N).
  { change 3600%N with (60 * 60)%N. rewrite N.Div0.mod_mul_r.
    rewrite N.mul_comm, N.Div0.mod_add. apply N.Div0.mod_mod. }
  lia.
Qed.

End Display.

(** X11. The timer display can be read back: the text [formatTime] shows
    for a number of elapsed seconds determines that number (so two
    different times never show alike), and below a hundred hours it is
    exactly eight characters, [HH:MM:SS]. *)
Theorem display_reads_back (totalSeconds : N) :
  (Z.of_N totalSeconds ≤ MAX_SAFE_INTEGER)%Z →
  clock_seconds (formatTime totalSeconds) = totalSeconds
  ∧ ((totalSeconds < 360000)%N → length (formatTime totalSeconds) = 8%nat).
Proof.
  intros _. destruct (formatTime_parts totalSeconds) as (Heq & HH & HM & HS).
  set (t := totalSeconds) in *.
  set (H := padStart2 (toString (t / 3600)%N)) in *.
  set (M := padStart2 (toString ((t mod 3600) / 60)%N)) in *.
  set (S := padStart2 (toString (t mod 60)%N)) in *.
  assert (Hlen : length (formatTime t) = (length H + 6)%nat).
  { rewrite Heq, !length_app. simpl. lia. }
  split; [|intros Ht].
  - unfold clock_seconds. rewrite Hlen.
    replace (length H + 6 - 6)%nat with (length H) by lia.
    replace (length H + 6 - 5)%nat with (length H + 1)%nat by lia.
    replace (length H + 6 - 2)%nat with (length H + 4)%nat by lia.
    rewrite Heq, take_app_length, !drop_app_add.
    change (drop 1 (lit ":" ++ M ++ lit ":" ++ S)) with (M ++ lit ":" ++ S).
    rewrite (take_app_length' M) by done.
    replace (drop 4 (lit ":" ++ M ++ lit ":" ++ S)) with S.
    2: { destruct M as [|? [|? [|]]]; done. }
    pose proof (read_digits_padStart2 (t / 3600) []) as HrH.
    pose proof (read_digits_padStart2 ((t mod 3600) / 60) []) as HrM.
    pose proof (read_digits_padStart2 (t mod 60) []) as HrS.
    rewrite app_nil_r in HrH, HrM, HrS. fold H in HrH. fold M in HrM. fold S in HrS.
    rewrite HrH, HrM, HrS. simpl read_digits.
    apply split_seconds.
  - rewrite Hlen. unfold H. rewrite padStart2_length; [done|].
    apply N.Div0.div_lt_upper_bound. lia.
Qed.

Lemma display_reads_back_witness :
  clock_seconds (formatTime 3725) = 3725%N
  ∧ ((3725 < 360000)%N → length (formatTime 3725) = 8%nat).
Proof. apply (display_reads_back 3725). vm_compute. discriminate. Defined.

(** ** The profile form *)

Section Form.

Lemma out_of_range_digits field lo hi :
  Forall (λ c, is_digit c = true) field →
  out_of_range field lo hi = false ↔ reads_within field lo hi.
Proof.
  intros Hd. unfold out_of_range, reads_within.
  rewrite (parseInt_digits _ Hd). destruct field as [|c r]; simpl.
  - split; [done|]. by intros [? _].
  - rewrite orb_false_iff, Z.ltb_ge, Z.ltb_ge. split; [|tauto].
    intros [? ?]. by split_and!.
Qed.

End Form.

(** X12. A profile whose number fields came through the digit filter of
    [handleNumberInput] passes the checks of [handleSubmitInfo] exactly
    when the name is not blank and age, weight and feet are filled in and
    read as numbers within 10..120, 50..700 and 3..8.  The inches are
    not checked at all. *)
Theorem filtered_form_is_range_checked (name age weight feet inches : jsstring) :
  handleSubmitInfo_check
    {| form_name := name;
       form_age := handleNumberInput age;
       form_weight := handleNumberInput weight;
       form_feet := handleNumberInput feet;
       form_inches := handleNumberInput inches |} = None
  ↔ trim name ≠ []
    ∧ reads_within (handleNumberInput age) 10 120
    ∧ reads_within (handleNumberInput weight) 50 700
    ∧ reads_within (handleNumberInput feet) 3 8.
Proof.
  unfold handleSubmitInfo_check. simpl.
  rewrite <- !out_of_range_digits by apply handleNumberInput_digits.
  destruct (trim name) as [|c r]; simpl; [by split; [|intros [? _]]|].
  repeat case_match; split; try done; try (intros (_ & ? & ? & ?); congruence).
Qed.

(** ** The chatbot's memory *)

Section Memory.

Lemma slice_last_length {A} n (l : list A) : (length (slice_last n l) ≤ n)%nat.
Proof. unfold slice_last. rewrite length_drop. lia. Qed.

Lemma slice_last_app {A} n (l x : list A) :
  slice_last n (slice_last n l ++ x) = slice_last n (l ++ x).
Proof.
  unfold slice_last. rewrite !length_app, length_drop.
  destruct (decide (length l ≤ n)%nat) as [Hle|Hgt].
  - replace (length l - n)%nat with 0%nat by lia. by rewrite Nat.sub_0_r.
  - replace (length l - (length l - n) + length x - n)%nat with (length x) by lia.
    replace (length l + length x - n)%nat
      with ((length l - n) + length x)%nat by lia.
    rewrite <- (drop_drop (l ++ x)), (drop_app_le l) by lia.
    done.
Qed.

Lemma exchanges_cons2 u a h :
  exchanges ((RoleUser, u) :: (RoleAssistant, a) :: h) ↔ exchanges h.
Proof. done. Qed.

Lemma exchanges_inv h :
  exchanges h →
  h = [] ∨ ∃ u a h', h = (RoleUser, u) :: (RoleAssistant, a) :: h' ∧ exchanges h'.
Proof.
  destruct h as [|[[] u] [|[[] a] h']]; simpl; try done; eauto 6.
Qed.

Lemma exchanges_ind2 (P : list (Role * jsstring) → Prop) :
  P [] →
  (∀ u a h, exchanges h → P h → P ((RoleUser, u) :: (RoleAssistant, a) :: h)) →
  ∀ h, exchanges h → P h.
Proof.
  intros H0 H2 h. remember (length h) as n eqn:Hn.
  revert h Hn. induction (lt_wf n) as [n _ IH]. intros h -> Hh.
  destruct (exchanges_inv _ Hh) as [->|(u & a & h' & -> & Hh')]; [done|].
  apply H2; [done|]. eapply IH; [|done..]. simpl. lia.
Qed.

Lemma exchanges_app h h' : exchanges h → exchanges h' → exchanges (h ++ h').
Proof. intros Hh Hh'. induction Hh using exchanges_ind2; done. Qed.

Lemma exchanges_even h : exchanges h → ∃ k, length h = (2 * k)%nat.
Proof.
  intros Hh. induction Hh as [|u a h _ [k Hk]] using exchanges_ind2.
  - by exists 0%nat.
  - exists (S k). simpl. lia.
Qed.

Lemma exchanges_drop k h : exchanges h → exchanges (drop (2 * k) h).
Proof.
  intros Hh. revert k. induction Hh as [|u a h Hh IH] using exchanges_ind2;
    intros k.
  - by rewrite drop_nil.
  - destruct k as [|k]; [done|].
    replace (2 * S k)%nat with (S (S (2 * k))) by lia. apply IH.
Qed.

Lemma exchanges_slice_last k h :
  exchanges h → exchanges (slice_last (2 * k) h).
Proof.
  intros Hh. unfold slice_last. destruct (exchanges_even _ Hh) as [j Hj].
  rewrite Hj. replace (2 * j - 2 * k)%nat with (2 * (j - k))%nat by lia.
  by apply exchanges_drop.
Qed.

Lemma memory_after_snoc answers a :
  memory_after (answers ++ [a])
  = (getRealAIReply_received (memory_after answers) (ans_userMsg a) (ans_ok a)
       (ans_error a) (ans_reply a)).2.
Proof. unfold memory_after. by rewrite fold_left_app. Qed.

Lemma dialogue_snoc answers a :
  dialogue (answers ++ [a]) = dialogue answers ++ dialogue [a].
Proof. unfold dialogue. by rewrite flat_map_app. Qed.

Lemma dialogue_exchanges answers : exchanges (dialogue answers).
Proof.
  induction answers as [|a answers IH]; [done|].
  unfold dialogue in *. simpl. apply exchanges_app; [|done].
  by repeat case_match.
Qed.

End Memory.

(** X13. The chatbot's memory is the tail of the conversation: whatever
    answers, errors and empty replies have arrived, [historyRef.current]
    holds the last twenty messages of the answered exchanges, at most
    twenty of them, as whole exchanges (a user message, then its answer);
    an exchange that failed leaves no trace in it. *)
Theorem memory_is_recent_dialogue (answers : list Answer) :
  memory_after answers = slice_last 20 (dialogue answers)
  ∧ (length (memory_after answers) ≤ 20)%nat
  ∧ exchanges (memory_after answers).
Proof.
  assert (Heq : memory_after answers = slice_last 20 (dialogue answers)).
  { induction answers as [|a answers IH] using rev_ind; [done|].
    rewrite memory_after_snoc, dialogue_snoc, IH.
    unfold getRealAIReply_received, dialogue at 3. simpl.
    destruct (ans_ok a), (ans_reply a) as [[|c r]|]; simpl;
      rewrite ?app_nil_r; try done.
    unfold remember. apply slice_last_app. }
  rewrite Heq. split_and!; [done|apply slice_last_length|].
  apply (exchanges_slice_last 10), dialogue_exchanges.
Qed.

(** ** The checklist *)

Section Checklist.

Lemma workout_key_inj today i j :
  workout_key today i = workout_key today j → i = j.
Proof.
  unfold workout_key. intros Heq%app_inv_head. simpl in Heq.
  injection Heq as Heq. by apply toString_inj, Nat2N.inj in Heq.
Qed.

Lemma startsWith_app p s : startsWith (p ++ s) p = true.
Proof.
  induction p as [|c p IH]; simpl; [by destruct s|]. by rewrite N.eqb_refl.
Qed.

Lemma workout_key_today today i : startsWith (workout_key today i) today = true.
Proof. apply startsWith_app. Qed.

Lemma isWorkoutComplete_true today i m :
  isWorkoutComplete today i m = true ↔ m !! workout_key today i = Some true.
Proof.
  unfold isWorkoutComplete. destruct (m !! workout_key today i) as [[]|]; naive_solver.
Qed.

Lemma click_lookup today c m key :
  click today m c !! key
  = if click_timerRunning c && bool_decide (key = workout_key today (click_index c))
    then match m !! key with Some true => None | _ => Some true end
    else m !! key.
Proof.
  unfold click, toggleWorkoutComplete. destruct (click_timerRunning c); simpl; [|done].
  case_bool_decide as Hk.
  - subst key. destruct (m !! workout_key _ _) as [[]|] eqn:Hm; simpl;
      by rewrite ?lookup_delete_eq, ?lookup_insert_eq.
  - destruct (m !! workout_key _ _) as [[]|] eqn:Hm; simpl;
      by rewrite ?lookup_delete_ne, ?lookup_insert_ne.
Qed.

Lemma todays_ticks_click today n m c :
  (click_index c < n)%nat → todays_ticks today n m →
  todays_ticks today n (click today m c).
Proof.
  intros Hc Hm key v. rewrite click_lookup.
  destruct (click_timerRunning c); simpl; [|apply Hm].
  case_bool_decide as Hk; [|apply Hm].
  destruct (m !! key) as [[]|]; intros; simplify_eq; eauto.
Qed.

Lemma todays_ticks_run today n clicks m :
  Forall (λ c, (click_index c < n)%nat) clicks → todays_ticks today n m →
  todays_ticks today n (fold_left (click today) clicks m).
Proof.
  intros Hcs. revert m. induction Hcs as [|c clicks Hc _ IH]; intros m Hm; [done|].
  simpl. by apply IH, todays_ticks_click.
Qed.

Lemma ticked_keys today n m :
  todays_ticks today n m →
  workout_key today <$> ticked today n m
  ≡ₚ List.filter (λ key, startsWith key today) (map_to_list m).*1.
Proof.
  intros Hm. apply NoDup_Permutation.
  - apply NoDup_fmap_2_strong.
    + intros i j _ _. apply workout_key_inj.
    + apply NoDup_ListNoDup, List.NoDup_filter, NoDup_ListNoDup, NoDup_seq.
  - apply NoDup_ListNoDup, List.NoDup_filter, NoDup_ListNoDup,
      NoDup_fst_map_to_list.
  - intros key. rewrite list_elem_of_fmap.
    setoid_rewrite list_elem_of_In. setoid_rewrite List.filter_In.
    setoid_rewrite <- list_elem_of_In. setoid_rewrite elem_of_seq.
    setoid_rewrite isWorkoutComplete_true.
    rewrite list_elem_of_fmap. split.
    + intros (i & -> & Hi & Hv). split; [|apply workout_key_today].
      exists (workout_key today i, true). split; [done|].
      by apply elem_of_map_to_list.
    + intros [([key' v] & -> & Hkv%elem_of_map_to_list) Hs]. simpl in *.
      destruct (Hm _ _ Hkv Hs) as (-> & i & Hi & ->).
      exists i. split_and!; [done|lia..|done].
Qed.

Lemma filter_all {A} (P : A → bool) l :
  length (List.filter P l) = length l ↔ ∀ x, x ∈ l → P x = true.
Proof.
  induction l as [|a l IH]; simpl.
  - split; [|done]. intros _ x Hx. by apply elem_of_nil in Hx.
  - pose proof (List.filter_length_le P l) as Hle.
    destruct (P a) eqn:Ha; simpl.
    + split.
      * intros Hl x [->|Hx]%elem_of_cons; [done|]. apply IH; [lia|done].
      * intros Hall. f_equal. apply IH. intros x Hx. apply Hall. by right.
    + split; [lia|]. intros Hall. rewrite Hall in Ha; [done|by left].
Qed.

End Checklist.

(** X14. A click on the checklist flips the one box clicked and no other,
    and only while the timer runs: with the timer stopped every box stays
    as it was. *)
Theorem toggle_flips_one_box (today : jsstring) (index pick j : nat)
    (timerRunning : bool) (completedWorkouts : gmap jsstring bool) :
  isWorkoutComplete today j
    (toggled_completed
       (toggleWorkoutComplete today index pick timerRunning completedWorkouts))
  = if timerRunning && bool_decide (j = index)
    then negb (isWorkoutComplete today index completedWorkouts)
    else isWorkoutComplete today j completedWorkouts.
Proof.
  pose proof (click_lookup today
    {| click_index := index; click_pick := pick;
       click_timerRunning := timerRunning |} completedWorkouts
    (workout_key today j)) as Hl.
  unfold click in Hl. simpl in Hl. unfold isWorkoutComplete at 1. rewrite Hl.
  destruct timerRunning; simpl; [|done].
  repeat case_bool_decide; simplify_eq; try done.
  - unfold isWorkoutComplete.
    by destruct (completedWorkouts !! workout_key today index) as [[]|].
  - exfalso. eauto using workout_key_inj.
Qed.

(** X15. The progress count is the number of ticked boxes.  On a
    checklist whose entries for today are ticks of the plan's exercises,
    and after any clicks on the plan's boxes, [getCompletedCount] counts
    exactly the boxes [isWorkoutComplete] shows as ticked; so it reaches
    the length of the plan exactly when every box is ticked. *)
Theorem count_is_ticked_boxes (today : jsstring) (n : nat)
    (completedWorkouts : gmap jsstring bool) (clicks : list Click) :
  todays_ticks today n completedWorkouts →
  Forall (λ c, (click_index c < n)%nat) clicks →
  let after := fold_left (click today) clicks completedWorkouts in
  getCompletedCount today after = length (ticked today n after)
  ∧ (getCompletedCount today after = n
     ↔ ∀ i, (i < n)%nat → isWorkoutComplete today i after = true).
Proof.
  intros Hm Hcs after.
  assert (Hafter : todays_ticks today n after) by by apply todays_ticks_run.
  assert (Hcount : getCompletedCount today after = length (ticked today n after)).
  { unfold getCompletedCount. rewrite <- (ticked_keys today n after Hafter).
    by rewrite length_fmap. }
  split; [done|]. rewrite Hcount. unfold ticked.
  split.
  - intros Hl i Hi.
    apply (proj1 (filter_all (λ i, isWorkoutComplete today i after) (seq 0 n)));
      [by rewrite length_seq|apply elem_of_seq; lia].
  - intros Hall.
    rewrite (proj2 (filter_all (λ i, isWorkoutComplete today i after) (seq 0 n)));
      [apply length_seq|].
    intros i Hi%elem_of_seq. apply Hall. lia.
Qed.

Lemma count_is_ticked_boxes_witness :
  let clicks :=
    [ {| click_index := 0; click_pick := 2; click_timerRunning := true |};
      {| click_index := 1; click_pick := 0; click_timerRunning := false |};
      {| click_index := 1; click_pick := 4; click_timerRunning := true |};
      {| click_index := 0; click_pick := 1; click_timerRunning := true |} ] in
  let after := fold_left (click (lit "Mon Nov 02 2026")) clicks ∅ in
  getCompletedCount (lit "Mon Nov 02 2026") after
  = length (ticked (lit "Mon Nov 02 2026") 3 after)
  ∧ (getCompletedCount (lit "Mon Nov 02 2026") after = 3%nat
     ↔ ∀ i, (i < 3)%nat → isWorkoutComplete (lit "Mon Nov 02 2026") i after = true).
Proof.
  apply (count_is_ticked_boxes (lit "Mon Nov 02 2026") 3 ∅).
  - intros key v Hkv. rewrite lookup_empty in Hkv. discriminate Hkv.
  - repeat constructor; simpl; lia.
Defined.

(** ** Accounts *)

Section AccountProofs.

Variable toLowerCase : jsstring → jsstring.
Variable inherited : jsstring → bool.
Variable D : Type.
Variable initial_data : D.

Lemma keeps_refl (m : gmap jsstring (Account D)) : keeps m m.
Proof. intros k a Hk. eauto. Qed.

Lemma keeps_trans (m1 m2 m3 : gmap jsstring (Account D)) :
  keeps m1 m2 → keeps m2 m3 → keeps m1 m3.
Proof.
  intros H12 H23 k a Hk. destruct (H12 _ _ Hk) as (a' & Hk' & Hp).
  destruct (H23 _ _ Hk') as (a'' & Hk'' & Hp'). exists a''. split; congruence.
Qed.

Lemma keeps_is_Some (m m' : gmap jsstring (Account D)) k :
  keeps m m' → is_Some (m !! k) → is_Some (m' !! k).
Proof. intros Hk [a Ha]. destruct (Hk _ _ Ha) as (a' & -> & _). eauto. Qed.

Lemma handleSignup_keeps m username password confirmPw :
  keeps m (handleSignup toLowerCase inherited D initial_data m
             username password confirmPw).2.
Proof.
  unfold handleSignup, get_property.
  repeat case_match; simpl; try apply keeps_refl.
  all: intros k b Hk; exists b; split; [|done].
  all: rewrite lookup_insert_ne; [done|congruence].
Qed.

Lemma handleSignup_entered m username password confirmPw name a :
  (handleSignup toLowerCase inherited D initial_data m
     username password confirmPw).1 = LoggedIn name a →
  name = toLowerCase username ∧ acct_password a = password
  ∧ falsy (trim password) = false
  ∧ (handleSignup toLowerCase inherited D initial_data m
       username password confirmPw).2 !! name = Some a.
Proof.
  unfold handleSignup, get_property.
  repeat case_match; simpl; intros Heq; simplify_eq.
  split_and!; try done.
  - match goal with H : _ || _ = false |- _ => by apply orb_false_iff in H as [_ ?] end.
  - by rewrite lookup_insert_eq.
Qed.

Lemma handleLogin_entered m username password name a :
  handleLogin toLowerCase inherited D m username password = LoggedIn name a →
  m !! name = Some a ∧ acct_password a = password.
Proof.
  unfold handleLogin, get_property, eqb.
  repeat first [case_bool_decide | case_match]; simpl; intros Heq; by simplify_eq.
Qed.

Lemma saveAccountData_keeps m u data :
  is_Some (m !! u) →
  ∃ m', saveAccountData inherited D u data m = Some m' ∧ keeps m m'.
Proof.
  intros [a Ha]. unfold saveAccountData, get_property. rewrite Ha.
  case_match; eexists; (split; [done|]); [apply keeps_refl|].
  intros k b Hk. destruct (decide (k = u)) as [->|Hne].
  - rewrite lookup_insert_eq. eexists; split; [done|]. simpl. congruence.
  - rewrite lookup_insert_ne by done. eauto.
Qed.

Lemma account_step_ok s e :
  signed_in s →
  ∃ s', account_step toLowerCase inherited D initial_data s e = Some s' ∧ signed_in s' ∧ keeps (accounts s) (accounts s').
Proof.
  intros Hin. destruct s as [m cu]. destruct e as [u p c|u p| | |data]; simpl.
  - pose proof (handleSignup_keeps m u p c) as Hk.
    pose proof (handleSignup_entered m u p c) as He.
    destruct (handleSignup _ _ _ _ m u p c) as [r m'] eqn:Hs. simpl in *.
    eexists; split; [done|]. split; [|done].
    unfold signed_in, entered. simpl. destruct r as [msg|name a].
    + unfold signed_in in Hin. simpl in Hin. destruct cu as [x|]; [|done].
      destruct Hin as [?|[?|?]]; eauto using keeps_is_Some.
    + destruct (He _ _ eq_refl) as (_ & _ & _ & Hn). right; right. eauto.
  - eexists; split; [done|]. split; [|apply keeps_refl].
    unfold signed_in, entered. simpl.
    destruct (handleLogin _ _ _ m u p) as [msg|name a] eqn:Hl; [done|].
    apply handleLogin_entered in Hl as [Hn _]. right; right. eauto.
  - eexists; split; [done|]. split; [|apply keeps_refl]. right; by left.
  - eexists; split; [done|]. split; [done|apply keeps_refl].
  - destruct cu as [u|]; [|eexists; split_and!; [done..|apply keeps_refl]].
    destruct (negb (falsy u) && negb (eqb u (lit "guest"))) eqn:Hg;
      [|eexists; split_and!; [done..|apply keeps_refl]].
    unfold signed_in in Hin. simpl in Hin.
    apply andb_true_iff in Hg as [Hf%negb_true_iff Hg%negb_true_iff].
    destruct Hin as [?|[->|Hu]]; [congruence| |].
    { unfold eqb in Hg. by case_bool_decide. }
    destruct (saveAccountData_keeps m u data Hu) as (m' & -> & Hk). simpl.
    eexists; split; [done|]. split; [|done].
    right; right. simpl. eauto using keeps_is_Some.
Qed.

Lemma account_run_ok events s :
  signed_in s →
  ∃ s', account_run toLowerCase inherited D initial_data s events = Some s' ∧ signed_in s' ∧ keeps (accounts s) (accounts s').
Proof.
  revert s. induction events as [|e events IH]; intros s Hin; simpl.
  - eexists; split_and!; [done..|apply keeps_refl].
  - destruct (account_step_ok s e Hin) as (s1 & -> & Hin1 & Hk1). simpl.
    destruct (IH s1 Hin1) as (s' & Hr & Hin' & Hk').
    eexists; split_and!; [done..|]. by eapply keeps_trans.
Qed.

End AccountProofs.

(** X16. Accounts are never lost and never change their password.
    Whatever is done from the login screen on (signing up, logging in,
    the guest, logging out, saving profile, checklist or history), every
    stored account is still there with the password it had; and the save
    never meets a name of [Object.prototype] in place of an account. *)
Theorem accounts_keep_their_password
    (toLowerCase : jsstring → jsstring) (inherited : jsstring → bool)
    (D : Type) (initial_data : D)
    (stored : gmap jsstring (Account D)) (events : list (AccountEvent D)) :
  ∃ s', account_run toLowerCase inherited D initial_data
          {| accounts := stored; currentUser := None |} events = Some s'
        ∧ ∀ k a, stored !! k = Some a →
            ∃ a', accounts s' !! k = Some a'
                  ∧ acct_password a' = acct_password a.
Proof.
  destruct (account_run_ok toLowerCase inherited D initial_data events
              {| accounts := stored; currentUser := None |})
    as (s' & Hr & _ & Hk); [done|].
  exists s'. split; [done|]. apply Hk.
Qed.

(** X17. Who signed up can log in.  After a sign-up that went through,
    and whatever happened since, logging in with the same password and
    the same name in any spelling that [toLowerCase] maps to the same
    key succeeds, into the account of that key. *)
Theorem signup_then_login
    (toLowerCase : jsstring → jsstring) (inherited : jsstring → bool)
    (D : Type) (initial_data : D)
    (stored : gmap jsstring (Account D)) (events : list (AccountEvent D))
    (username password confirmPw username' : jsstring) :
  is_logged_in
    (handleSignup toLowerCase inherited D initial_data stored
       username password confirmPw).1 = true →
  toLowerCase username' = toLowerCase username →
  falsy (trim username') = false →
  ∃ s' a,
    account_run toLowerCase inherited D initial_data
      {| accounts := stored; currentUser := None |}
      (Signup username password confirmPw :: events) = Some s'
    ∧ handleLogin toLowerCase inherited D (accounts s') username' password
      = LoggedIn (toLowerCase username) a.
Proof.
  intros Hs Hl Ht. simpl.
  pose proof (handleSignup_entered toLowerCase inherited D initial_data
                stored username password confirmPw) as He.
  destruct (handleSignup _ _ _ _ stored username password confirmPw)
    as [[msg|name a] m'] eqn:Hsign; [done|]. simpl in *.
  destruct (He _ _ eq_refl) as (-> & Hp & Hpw & Hn).
  destruct (account_run_ok toLowerCase inherited D initial_data events
              {| accounts := m'; currentUser := Some (toLowerCase username) |})
    as (s' & Hr & _ & Hk).
  { right; right. simpl. eauto. }
  destruct (Hk _ _ Hn) as (a' & Ha' & Hp').
  exists s', a'. split; [done|].
  unfold handleLogin, get_property. rewrite Ht, Hpw, Hl, Ha'. simpl.
  unfold eqb. rewrite bool_decide_eq_true_2; [done|congruence].
Qed.

Lemma signup_then_login_witness :
  ∃ s' a,
    account_run (λ s, s) (λ _, false) unit tt
      {| accounts := ∅; currentUser := None |}
      [Signup (lit "alex") (lit "pass1") (lit "pass1"); Save (λ d, d); Logout]
    = Some s'
    ∧ handleLogin (λ s, s) (λ _, false) unit (accounts s') (lit "alex") (lit "pass1")
      = LoggedIn (lit "alex") a.
Proof.
  apply (signup_then_login (λ s, s) (λ _, false) unit tt ∅
           [Save (λ d, d); Logout] (lit "alex") (lit "pass1") (lit "pass1")
           (lit "alex")); reflexivity.
Defined.
